(** * Simple association of DiaSources into DiaObjects

    A shallow embedding of [lsst.pipe.tasks.simpleAssociation]
    ([SimpleAssociationConfig], [SimpleAssociationTask]) and the properties
    of the association engine proved over it.

    The task is written against three collaborators that live outside the
    module: the healpix helpers of [associationUtils] ([toIndex],
    [query_disc], [eq2xyz]), the sphere geometry of [lsst.geom]
    ([SpherePoint], [averageSpherePoint]) and the id factory of
    [lsst.afw.table].  They are kept abstract, as an interface
    ([Collaborators]); every theorem of the engine holds for any
    implementation of it.  Floating point numbers are likewise an interface
    ([Numeric]): the engine only adds, subtracts, multiplies, divides, takes
    square roots and compares.

    Python exceptions are values: a call returns [Ok v] or [Raise e]. *)

From stdpp Require Import base option list numbers sorting.
From Stdlib Require Import ZArith Lia.
From Stdlib Require Reals Lra.

(** ** Exceptions *)

(** The exceptions the task itself can raise come from indexing a list
    ([IndexError]) and from reducing an empty array ([ValueError]); all
    others are raised by a collaborator and carried through unchanged. *)
Inductive exn (X : Type) : Type :=
  | IndexError
  | ValueError
  | Collaborator (x : X).
Arguments IndexError {X}.
Arguments ValueError {X}.
Arguments Collaborator {X} x.

Inductive result (X A : Type) : Type :=
  | Ok (a : A)
  | Raise (e : exn X).
Arguments Ok {X A} a.
Arguments Raise {X A} e.

#[global] Instance result_ret {X} : MRet (result X) := λ A a, Ok a.
#[global] Instance result_bind {X} : MBind (result X) :=
  λ A B f m, match m with Ok a => f a | Raise e => Raise e end.
#[global] Instance result_fmap {X} : FMap (result X) :=
  λ A B f m, match m with Ok a => Ok (f a) | Raise e => Raise e end.

(** What a call to a collaborator comes to: it returns, or raises an
    exception of its own. *)
Inductive outcome (X A : Type) : Type :=
  | Returns (a : A)
  | Raises (x : X).
Arguments Returns {X A} a.
Arguments Raises {X A} x.

(** A call from the task. *)
Definition call {X A} (o : outcome X A) : result X A :=
  match o with
  | Returns a => Ok a
  | Raises x => Raise (Collaborator x)
  end.

(** A [for] loop whose body may raise. *)
Fixpoint foldM {X A B} (f : B → A → result X B) (b : B) (l : list A) : result X B :=
  match l with
  | [] => Ok b
  | a :: l' => b' ← f b a; foldM f b' l'
  end.

(** [l[i]] of a Python list. *)
Definition getitem {X A} (l : list A) (i : nat) : result X A :=
  match l !! i with
  | Some a => Ok a
  | None => Raise IndexError
  end.

(** [l[i] = a] of a Python list. *)
Definition setitem {X A} (l : list A) (i : nat) (a : A) : result X (list A) :=
  if decide (i < length l) then Ok (<[i:=a]> l) else Raise IndexError.

(** ** Interfaces *)

(** The float operations the task uses. [Fconst] reads an integer literal
    ([2], [3600]). *)
Class Numeric (F : Type) := {
  Fadd : F → F → F;
  Fsub : F → F → F;
  Fmul : F → F → F;
  Fdiv : F → F → F;
  Fsqrt : F → F;
  Flt : F → F → bool;
  Fconst : Z → F;
  deg2rad : F → F
}.

(** The collaborators: [SP] is [lsst.geom.SpherePoint], [IdF] the state of an
    [lsst.afw.table.IdFactory], [X] whatever they raise. *)
Class Collaborators (F SP IdF X : Type) := {
  (* associationUtils *)
  toIndex : Z → F → F → outcome X Z;
  query_disc : Z → F → F → F → outcome X (list Z);
  eq2xyz : F → F → F * F * F;
  (* lsst.geom *)
  SpherePoint : F → F → outcome X SP;
  averageSpherePoint : list SP → outcome X SP;
  getRa_asDegrees : SP → F;
  getDec_asDegrees : SP → F;
  (* lsst.afw.table *)
  IdFactory_makeSource : Z → Z → outcome X IdF;
  addNew_id : IdF → outcome X (Z * IdF)
}.

(** ** Data *)

(** [SimpleAssociationConfig]. *)
Record SimpleAssociationConfig (F : Type) := {
  tolerance : F;
  nside : Z
}.
Arguments tolerance {F} _.
Arguments nside {F} _.

(** A row of the DiaSource table: the two index columns, the position, the
    [diaObjectId] column ([None] where the cell holds no id) and every other
    column, whatever it is. *)
Module DiaSource.
Record t (F Payload : Type) := mk {
  ccdVisitId : Z;
  diaSourceId : Z;
  ra : F;
  decl : F;
  diaObjectId : option Z;
  columns : Payload
}.
Arguments mk {F Payload}.
Arguments ccdVisitId {F Payload} _.
Arguments diaSourceId {F Payload} _.
Arguments ra {F Payload} _.
Arguments decl {F Payload} _.
Arguments diaObjectId {F Payload} _.
Arguments columns {F Payload} _.
End DiaSource.

(** The dictionary [createDiaObject] builds. *)
Module DiaObject.
Record t (F : Type) := mk {
  diaObjectId : Z;
  ra : F;
  decl : F;
  nDiaSources : Z;
  pmParallaxNdata : Z;
  nearbyObj1 : Z;
  nearbyObj2 : Z;
  nearbyObj3 : Z;
  flags : Z;
  uPSFluxNdata : Z;
  gPSFluxNdata : Z;
  rPSFluxNdata : Z;
  iPSFluxNdata : Z;
  zPSFluxNdata : Z;
  yPSFluxNdata : Z
}.
Arguments mk {F}.
Arguments diaObjectId {F} _.
Arguments ra {F} _.
Arguments decl {F} _.
Arguments nDiaSources {F} _.
Arguments pmParallaxNdata {F} _.
Arguments nearbyObj1 {F} _.
Arguments nearbyObj2 {F} _.
Arguments nearbyObj3 {F} _.
Arguments flags {F} _.
Arguments uPSFluxNdata {F} _.
Arguments gPSFluxNdata {F} _.
Arguments rPSFluxNdata {F} _.
Arguments iPSFluxNdata {F} _.
Arguments zPSFluxNdata {F} _.
Arguments yPSFluxNdata {F} _.
End DiaObject.

(** What [run] keeps while it loops: the table it writes ids into, the three
    parallel lists and the id catalog. *)
Record State (F SP IdF Payload : Type) := {
  diaSources : list (DiaSource.t F Payload);
  diaObjectCat : list (DiaObject.t F);
  diaObjectCoords : list (list SP);
  healPixIndices : list Z;
  idCat : IdF
}.
Arguments diaSources {F SP IdF Payload} _.
Arguments diaObjectCat {F SP IdF Payload} _.
Arguments diaObjectCoords {F SP IdF Payload} _.
Arguments healPixIndices {F SP IdF Payload} _.
Arguments idCat {F SP IdF Payload} _.

(** ** numpy and pandas helpers *)

(** [np.isin(xs, ys)]. *)
Definition np_isin {A} `{EqDecision A} (xs ys : list A) : list bool :=
  (λ x, bool_decide (x ∈ ys)) <$> xs.

(** [np.argwhere(bs).flatten()]: the positions that hold [True]. *)
Fixpoint argwhere_from (i : nat) (bs : list bool) : list nat :=
  match bs with
  | [] => []
  | b :: bs' => if b then i :: argwhere_from (S i) bs' else argwhere_from (S i) bs'
  end.

Definition np_argwhere (bs : list bool) : list nat := argwhere_from 0 bs.

(** [bs.sum()] of a boolean array. *)
Definition np_count (bs : list bool) : nat := length (filter (λ b, b = true) bs).

(** [diaSources.index.levels[0]]: the distinct ccdVisitIds, ascending. *)
Definition index_levels0 {F Payload} (tbl : list (DiaSource.t F Payload)) : list Z :=
  merge_sort Z.le (remove_dups (DiaSource.ccdVisitId <$> tbl)).

(** [diaSources.loc[ccdVisit]]: the rows of one ccdVisit, in table order. *)
Definition loc_visit {F Payload} (tbl : list (DiaSource.t F Payload)) (ccdVisit : Z)
  : list (DiaSource.t F Payload) :=
  filter (λ r, DiaSource.ccdVisitId r = ccdVisit) tbl.

Definition set_diaObjectId {F Payload} (v : Z) (r : DiaSource.t F Payload)
  : DiaSource.t F Payload :=
  DiaSource.mk (DiaSource.ccdVisitId r) (DiaSource.diaSourceId r)
               (DiaSource.ra r) (DiaSource.decl r) (Some v) (DiaSource.columns r).

(** [diaSources.loc[(ccdVisit, diaSourceId), "diaObjectId"] = v]: every row
    under that index entry takes the value. *)
Definition loc_set {F Payload} (tbl : list (DiaSource.t F Payload))
    (ccdVisit diaSourceId v : Z) : list (DiaSource.t F Payload) :=
  (λ r, if decide (DiaSource.ccdVisitId r = ccdVisit ∧ DiaSource.diaSourceId r = diaSourceId)
        then set_diaObjectId v r else r) <$> tbl.

Section Association.
Context {F SP IdF X Payload : Type}.
Context `{!Numeric F} `{!Collaborators F SP IdF X}.

Abbreviation Row := (DiaSource.t F Payload).
Abbreviation Obj := (DiaObject.t F).
Abbreviation St := (State F SP IdF Payload).
Abbreviation Config := (SimpleAssociationConfig F).

(** [np.argmin] and [np.min]: one scan, the first least element wins. *)
Fixpoint argmin_scan (best : nat) (bestv : F) (i : nat) (xs : list F) : nat * F :=
  match xs with
  | [] => (best, bestv)
  | x :: xs' =>
      if Flt x bestv then argmin_scan i x (S i) xs'
      else argmin_scan best bestv (S i) xs'
  end.

Definition np_argmin (xs : list F) : result X nat :=
  match xs with
  | [] => Raise ValueError
  | x :: xs' => Ok (fst (argmin_scan 0 x 1 xs'))
  end.

Definition np_min (xs : list F) : result X F :=
  match xs with
  | [] => Raise ValueError
  | x :: xs' => Ok (snd (argmin_scan 0 x 1 xs'))
  end.

(** [np.sqrt(np.sum((eq2xyz(ra1, dec1) - eq2xyz(ra2, dec2))**2))]. *)
Definition unit_vector_distance (ra1 dec1 ra2 dec2 : F) : F :=
  let '(x1, y1, z1) := eq2xyz ra1 dec1 in
  let '(x2, y2, z2) := eq2xyz ra2 dec2 in
  let dx := Fsub x1 x2 in
  let dy := Fsub y1 y2 in
  let dz := Fsub z1 z2 in
  Fsqrt (Fadd (Fadd (Fmul dx dx) (Fmul dy dy)) (Fmul dz dz)).

(** [np.deg2rad(self.config.tolerance/3600)]. *)
Definition match_radius (cfg : Config) : F :=
  deg2rad (Fdiv (tolerance cfg) (Fconst 3600)).

(** ** The task *)

Definition createDiaObject (objId : Z) (ra decl : F) : Obj :=
  DiaObject.mk objId ra decl 1 0 0 0 0 0 0 0 0 0 0 0.

Definition addNewDiaObject (cfg : Config) (diaSrc : Row) (ccdVisit diaSourceId : Z)
    (st : St) : result X St :=
  hpIndex ← call (toIndex (nside cfg) (DiaSource.ra diaSrc) (DiaSource.decl diaSrc));
  sphPoint ← call (SpherePoint (DiaSource.ra diaSrc) (DiaSource.decl diaSrc));
  '(diaObjId, idCat') ← call (addNew_id (idCat st));
  Ok {| diaSources := loc_set (diaSources st) ccdVisit diaSourceId diaObjId;
        diaObjectCat := diaObjectCat st
          ++ [createDiaObject diaObjId (DiaSource.ra diaSrc) (DiaSource.decl diaSrc)];
        diaObjectCoords := diaObjectCoords st ++ [[sphPoint]];
        healPixIndices := healPixIndices st ++ [hpIndex];
        idCat := idCat' |}.

(** The three assignments of [updateCatalogs] to [diaObjCat[matchIndex]]. *)
Definition moved (o : Obj) (ra decl : F) : Obj :=
  DiaObject.mk (DiaObject.diaObjectId o) ra decl (DiaObject.nDiaSources o + 1)
    (DiaObject.pmParallaxNdata o) (DiaObject.nearbyObj1 o) (DiaObject.nearbyObj2 o)
    (DiaObject.nearbyObj3 o) (DiaObject.flags o)
    (DiaObject.uPSFluxNdata o) (DiaObject.gPSFluxNdata o) (DiaObject.rPSFluxNdata o)
    (DiaObject.iPSFluxNdata o) (DiaObject.zPSFluxNdata o) (DiaObject.yPSFluxNdata o).

Definition updateCatalogs (cfg : Config) (matchIndex : nat) (diaSrc : Row)
    (ccdVisit diaSourceId : Z) (st : St) : result X St :=
  sphPoint ← call (SpherePoint (DiaSource.ra diaSrc) (DiaSource.decl diaSrc));
  coords ← getitem (diaObjectCoords st) matchIndex;
  let coords' := coords ++ [sphPoint] in
  aveCoord ← call (averageSpherePoint coords');
  obj ← getitem (diaObjectCat st) matchIndex;
  let obj' := moved obj (getRa_asDegrees aveCoord) (getDec_asDegrees aveCoord) in
  hpIndex ← call (toIndex (nside cfg) (DiaObject.ra obj') (DiaObject.decl obj'));
  healPixIndices' ← setitem (healPixIndices st) matchIndex hpIndex;
  Ok {| diaSources := loc_set (diaSources st) ccdVisit diaSourceId (DiaObject.diaObjectId obj');
        diaObjectCat := <[matchIndex := obj']> (diaObjectCat st);
        diaObjectCoords := <[matchIndex := coords']> (diaObjectCoords st);
        healPixIndices := healPixIndices';
        idCat := idCat st |}.

(** [findMatches]: [None] stands for the struct with [dists=None]. *)
Definition findMatches (cfg : Config) (src_ra src_dec tol : F)
    (hpIndices : list Z) (diaObjs : list Obj) : result X (option (list F * list nat)) :=
  match_indices ← call (query_disc (nside cfg) src_ra src_dec
                                    (deg2rad (Fdiv tol (Fconst 3600))));
  let matchIndices := np_argwhere (np_isin hpIndices match_indices) in
  if decide (length matchIndices < 1) then Ok None
  else
    dists ← mapM (λ match_,
                    o ← getitem diaObjs match_;
                    Ok (unit_vector_distance src_ra src_dec
                          (DiaObject.ra o) (DiaObject.decl o)))
                 matchIndices;
    Ok (Some (dists, matchIndices)).

(** The body of the loop over the sources of a ccdVisit after the first:
    the state and [usedMatchIndicies] before, and after. *)
Definition associateSource (cfg : Config) (ccdVisit : Z)
    (acc : St * list nat) (diaSrc : Row) : result X (St * list nat) :=
  let '(st, usedMatchIndicies) := acc in
  let diaSourceId := DiaSource.diaSourceId diaSrc in
  matchResult ← findMatches cfg (DiaSource.ra diaSrc) (DiaSource.decl diaSrc)
                   (Fmul (Fconst 2) (tolerance cfg))
                   (healPixIndices st) (diaObjectCat st);
  match matchResult with
  | None =>
      st' ← addNewDiaObject cfg diaSrc ccdVisit diaSourceId st;
      Ok (st', usedMatchIndicies)
  | Some (dists, matches) =>
      least ← np_min dists;
      if Flt least (match_radius cfg) then
        matchDistArg ← np_argmin dists;
        matchIndex ← getitem matches matchDistArg;
        if decide (np_count (np_isin [matchIndex] usedMatchIndicies) < 1) then
          st' ← updateCatalogs cfg matchIndex diaSrc ccdVisit diaSourceId st;
          Ok (st', usedMatchIndicies ++ [matchIndex])
        else
          st' ← addNewDiaObject cfg diaSrc ccdVisit diaSourceId st;
          Ok (st', usedMatchIndicies)
      else
        st' ← addNewDiaObject cfg diaSrc ccdVisit diaSourceId st;
        Ok (st', usedMatchIndicies)
  end.

(** The body of the loop over [diaSources.index.levels[0]]. *)
Definition associateVisit (cfg : Config) (st : St) (ccdVisit : Z) : result X St :=
  let ccdVisitSources := loc_visit (diaSources st) ccdVisit in
  if decide (length (diaObjectCat st) = 0) then
    foldM (λ st diaSrc,
             addNewDiaObject cfg diaSrc ccdVisit (DiaSource.diaSourceId diaSrc) st)
          st ccdVisitSources
  else
    fst <$> foldM (associateSource cfg ccdVisit) (st, []) ccdVisitSources.

Definition initial (tbl : list Row) (idf : IdF) : St :=
  {| diaSources := tbl; diaObjectCat := []; diaObjectCoords := [];
     healPixIndices := []; idCat := idf |}.

(** [run]: [set_index] and [reset_index] move the two key columns into the
    index and back and leave the rows and their order as they are; the result
    is [(assocDiaSources, diaObjects)]. *)
Definition run (cfg : Config) (diaSources0 : list Row) (tractPatchId skymapBits : Z)
  : result X (list Row * list Obj) :=
  idf ← call (IdFactory_makeSource tractPatchId (64 - skymapBits));
  st ← foldM (associateVisit cfg) (initial diaSources0 idf) (index_levels0 diaSources0);
  Ok (diaSources st, diaObjectCat st).

End Association.

(** ** Specification vocabulary *)

(** The sum of the [nDiaSources] column of an object table. *)
Definition total_nDiaSources {F} (objs : list (DiaObject.t F)) : Z :=
  foldr Z.add 0%Z (DiaObject.nDiaSources <$> objs).

(** The index entry of a row. *)
Definition key {F Payload} (r : DiaSource.t F Payload) : Z * Z :=
  (DiaSource.ccdVisitId r, DiaSource.diaSourceId r).

(** What the task reads of a row: its index entry and its position. *)
Definition observed {F Payload} (r : DiaSource.t F Payload) : Z * Z * F * F :=
  (DiaSource.ccdVisitId r, DiaSource.diaSourceId r, DiaSource.ra r, DiaSource.decl r).

(** Every column of a row but [diaObjectId]. *)
Definition frame {F Payload} (r : DiaSource.t F Payload) : Z * Z * F * F * Payload :=
  (DiaSource.ccdVisitId r, DiaSource.diaSourceId r, DiaSource.ra r, DiaSource.decl r,
   DiaSource.columns r).

(** The order in which [run] takes the rows: ccdVisit by ccdVisit, ascending,
    and in table order within one. *)
Definition schedule {F Payload} (tbl : list (DiaSource.t F Payload))
  : list (DiaSource.t F Payload) :=
  v ← index_levels0 tbl; loc_visit tbl v.

(** The three lists run in parallel, and an object counts as many sources
    as its coordinate history holds. *)
Definition parallel_inv {F SP IdF Payload} (st : State F SP IdF Payload) : Prop :=
  length (diaObjectCat st) = length (diaObjectCoords st)
  ∧ length (diaObjectCoords st) = length (healPixIndices st)
  ∧ ∀ i o h, diaObjectCat st !! i = Some o → diaObjectCoords st !! i = Some h →
      DiaObject.nDiaSources o = Z.of_nat (length h).

Section Vocabulary.
Context {F SP IdF X Payload : Type}.
Context `{!Numeric F} `{!Collaborators F SP IdF X}.

Abbreviation Row := (DiaSource.t F Payload).
Abbreviation Obj := (DiaObject.t F).
Abbreviation St := (State F SP IdF Payload).
Abbreviation Config := (SimpleAssociationConfig F).


(** One completed operation of the task on a row, and the index of the
    object the row went to: a creation, at the end of the catalog, or an
    attachment, at [matchIndex]. *)
Inductive step (cfg : Config) : St → Row → nat → St → Prop :=
  | step_create st r st' :
      addNewDiaObject cfg r (DiaSource.ccdVisitId r) (DiaSource.diaSourceId r) st = Ok st' →
      step cfg st r (length (diaObjectCat st)) st'
  | step_attach st r matchIndex st' :
      updateCatalogs cfg matchIndex r (DiaSource.ccdVisitId r) (DiaSource.diaSourceId r) st
        = Ok st' →
      step cfg st r matchIndex st'.

(** A sequence of operations, with its trace: the rows taken, in order, each
    with the index of its object. *)
Inductive steps (cfg : Config) : St → list (Row * nat) → St → Prop :=
  | steps_nil st : steps cfg st [] st
  | steps_cons st r i st1 trace st2 :
      step cfg st r i st1 → steps cfg st1 trace st2 →
      steps cfg st ((r, i) :: trace) st2.

(** The sources a trace gives to the object at index [i], in order. *)
Definition sources_of (i : nat) (trace : list (Row * nat)) : list Row :=
  (filter (λ x, x.2 = i) trace).*1.

(** The point [lsst.geom] makes of the position of a row. *)
Definition point_of (sp : SP) (r : Row) : Prop :=
  SpherePoint (DiaSource.ra r) (DiaSource.decl r) = Returns sp.

(** The coordinate history of each object holds the points of the sources
    the trace gave to it, in order (and a trace gives nothing to an index
    that holds no object yet). *)
Definition history_inv (trace : list (Row * nat)) (st : St) : Prop :=
  ∀ i, Forall2 point_of (default [] (diaObjectCoords st !! i)) (sources_of i trace).



(** The row holds the id of an object of the catalog. *)
Definition assigned (objs : list Obj) (r : Row) : Prop :=
  ∃ id, DiaSource.diaObjectId r = Some id
      ∧ ∃ o, o ∈ objs ∧ DiaObject.diaObjectId o = id.

(** The rows whose index entry satisfies [P] are assigned. *)
Definition assigned_on (P : Z * Z → Prop) (st : St) : Prop :=
  ∀ r, r ∈ diaSources st → P (key r) → assigned (diaObjectCat st) r.

(** Two outcomes of [run] that cannot be told apart: the same exception, or
    the same object table and the same [diaObjectId] column. *)
Definition same_outputs (m1 m2 : result X (list Row * list Obj)) : Prop :=
  match m1, m2 with
  | Ok (t1, o1), Ok (t2, o2) =>
      o1 = o2 ∧ DiaSource.diaObjectId <$> t1 = DiaSource.diaObjectId <$> t2
  | Raise e1, Raise e2 => e1 = e2
  | _, _ => False
  end.

Definition rel_result {A} (R : A → A → Prop) (m1 m2 : result X A) : Prop :=
  match m1, m2 with
  | Ok a, Ok b => R a b
  | Raise e1, Raise e2 => e1 = e2
  | _, _ => False
  end.

(** Two tables with the same rows as far as the task reads them, and the same
    ids in the rows whose index entry satisfies [W]. *)
Definition agree (W : Z * Z → Prop) (t1 t2 : list Row) : Prop :=
  Forall2 (λ r1 r2, observed r1 = observed r2
                    ∧ (W (key r1) → DiaSource.diaObjectId r1 = DiaSource.diaObjectId r2))
          t1 t2.

Definition sim (W : Z * Z → Prop) (st1 st2 : St) : Prop :=
  agree W (diaSources st1) (diaSources st2)
  ∧ diaObjectCat st1 = diaObjectCat st2
  ∧ diaObjectCoords st1 = diaObjectCoords st2
  ∧ healPixIndices st1 = healPixIndices st2
  ∧ idCat st1 = idCat st2.

(** The columns [createDiaObject] sets to zero and [updateCatalogs] leaves
    alone. *)
Definition auxiliary (o : Obj) : list Z :=
  [DiaObject.pmParallaxNdata o; DiaObject.nearbyObj1 o; DiaObject.nearbyObj2 o;
   DiaObject.nearbyObj3 o; DiaObject.flags o;
   DiaObject.uPSFluxNdata o; DiaObject.gPSFluxNdata o; DiaObject.rPSFluxNdata o;
   DiaObject.iPSFluxNdata o; DiaObject.zPSFluxNdata o; DiaObject.yPSFluxNdata o].

(** The ids of [n] successive [idCat.addNew()] on a factory, and the factory
    after them; [None] when one of the calls raises. *)
Fixpoint issued (n : nat) (idf : IdF) : option (list Z * IdF) :=
  match n with
  | 0 => Some ([], idf)
  | S n' =>
      match addNew_id idf with
      | Returns (id, idf') => '(ids, idf'') ← issued n' idf'; Some (id :: ids, idf'')
      | Raises _ => None
      end
  end.


(** Two tables with the same rows, as far as the task reads them, under each
    ccdVisitId and in the same order there; the rows of different ccdVisits
    may be interleaved differently. *)
Definition same_visits (t1 t2 : list Row) : Prop :=
  ∀ v, observed <$> loc_visit t1 v = observed <$> loc_visit t2 v.

(** Two states with the same objects, histories, healpix indices and id
    factory. *)
Definition same_core (st1 st2 : St) : Prop :=
  diaObjectCat st1 = diaObjectCat st2
  ∧ diaObjectCoords st1 = diaObjectCoords st2
  ∧ healPixIndices st1 = healPixIndices st2
  ∧ idCat st1 = idCat st2.

End Vocabulary.

(** ** A planar test double

    An implementation of the two interfaces that computes: positions are
    points of the integer plane, one unit to the degree, and an angle in
    radians is the same number of units; [nside] square cells span 4096
    units; the average of points is their centroid; ids are issued as
    [lsst.afw.table.IdFactory.makeSource] issues them, the exposure id above
    [reserved] bits of a counter that starts at 1.  It serves to run the task
    on concrete tables. *)
Module Lattice.

Inductive error : Type :=
  | BadNside
  | EmptyAverage
  | ExposureIdTooLarge
  | IdsExhausted.

#[global] Instance numeric : Numeric Z := {|
  Fadd := Z.add;
  Fsub := Z.sub;
  Fmul := Z.mul;
  Fdiv := Z.div;
  Fsqrt := Z.sqrt;
  Flt := Z.ltb;
  Fconst := λ z, z;
  deg2rad := λ z, z
|}.

Definition cell_width (nside : Z) : Z := (4096 / nside)%Z.

Definition cell_id (i j : Z) : Z := (i * 1048576 + j)%Z.

Definition cell_of (nside : Z) (ra dec : Z) : outcome error Z :=
  if decide (0 < nside ≤ 4096)%Z
  then Returns (cell_id (ra / cell_width nside) (dec / cell_width nside))
  else Raises BadNside.

(** Every cell that meets the square of half-width [radius] around the
    point: a cover of the disc. *)
Definition cells_within (nside : Z) (ra dec radius : Z) : outcome error (list Z) :=
  if decide (0 < nside ≤ 4096)%Z
  then
    let w := cell_width nside in
    let lo_i := ((ra - radius) / w)%Z in
    let hi_i := ((ra + radius) / w)%Z in
    let lo_j := ((dec - radius) / w)%Z in
    let hi_j := ((dec + radius) / w)%Z in
    Returns (i ← seqZ lo_i (hi_i - lo_i + 1);
             j ← seqZ lo_j (hi_j - lo_j + 1);
             [cell_id i j])
  else Raises BadNside.

Definition centroid (ps : list (Z * Z)) : outcome error (Z * Z) :=
  match ps with
  | [] => Raises EmptyAverage
  | _ =>
      let n := Z.of_nat (length ps) in
      Returns ((foldr Z.add 0 (fst <$> ps) / n)%Z, (foldr Z.add 0 (snd <$> ps) / n)%Z)
  end.

(** The factory: the bits above the counter, the counter, and its width. *)
Record factory := { upper : Z; sequence : Z; reserved : Z }.

Definition makeSource (expId reserved : Z) : outcome error factory :=
  if decide (0 ≤ expId ∧ 0 ≤ reserved ≤ 63 ∧ expId < 2 ^ (63 - reserved))%Z
  then Returns {| upper := Z.shiftl expId reserved; sequence := 0%Z; reserved := reserved |}
  else Raises ExposureIdTooLarge.

Definition next_id (f : factory) : outcome error (Z * factory) :=
  let s := (sequence f + 1)%Z in
  if decide (s < 2 ^ reserved f)%Z
  then Returns (Z.lor (upper f) s,
                {| upper := upper f; sequence := s; reserved := reserved f |})
  else Raises IdsExhausted.

#[global] Instance collaborators : Collaborators Z (Z * Z) factory error := {|
  toIndex := cell_of;
  query_disc := cells_within;
  eq2xyz := λ ra dec, (ra, dec, 0%Z);
  SpherePoint := λ ra dec, Returns (ra, dec);
  averageSpherePoint := centroid;
  getRa_asDegrees := fst;
  getDec_asDegrees := snd;
  IdFactory_makeSource := makeSource;
  addNew_id := next_id
|}.

(** A source row with no further columns and an empty [diaObjectId] cell. *)
Definition src (ccdVisit diaSourceId ra dec : Z) : DiaSource.t Z unit :=
  DiaSource.mk ccdVisit diaSourceId ra dec None tt.

(** A tolerance of 8 units (28800 arcsec) and cells of 16 units. *)
Definition config : SimpleAssociationConfig Z := {| tolerance := 28800%Z; nside := 256%Z |}.

(** Three ccdVisits: two sources found two objects; a third source joins the
    first object, a fourth has that object nearest and already used and the
    second one within reach, a fifth is far from all and a sixth sits next to
    it; a last one comes alone. *)
Definition table : list (DiaSource.t Z unit) :=
  [src 1 1 0 0; src 1 2 10 0; src 2 3 1 0; src 2 4 3 0;
   src 2 5 300 300; src 2 6 301 300; src 3 7 50 50]%Z.

Definition output : list (DiaSource.t Z unit) * list (DiaObject.t Z) :=
  Eval vm_compute in
    match run config table 5 16 with
    | Ok out => out
    | Raise _ => ([], [])
    end.

Abbreviation LState := (State Z (Z * Z) factory unit).

(** The factory [makeSource 5 (64 - 16)] returns. *)
Definition idf0 : factory :=
  {| upper := Z.shiftl 5 48; sequence := 0%Z; reserved := 48%Z |}.

(** The state after ccdVisit 1, and after the first source of ccdVisit 2. *)
Definition after_visit1 : LState :=
  Eval vm_compute in
    match associateVisit config (initial table idf0) 1 with
    | Ok st => st
    | Raise _ => initial table idf0
    end.

Definition after_source3 : LState :=
  Eval vm_compute in
    match associateSource config 2 (after_visit1, []) (src 2 3 1 0) with
    | Ok (st, _) => st
    | Raise _ => after_visit1
    end.

(** A table of two sources, and the states after the creation and the
    attachment that [run] makes of it. *)
Definition pair : list (DiaSource.t Z unit) := [src 1 1 0 0; src 2 2 1 0]%Z.

Definition pair_created : LState :=
  Eval vm_compute in
    match addNewDiaObject config (src 1 1 0 0) 1 1 (initial pair idf0) with
    | Ok st => st
    | Raise _ => initial pair idf0
    end.

Definition pair_attached : LState :=
  Eval vm_compute in
    match updateCatalogs config 0 (src 2 2 1 0) 2 2 pair_created with
    | Ok st => st
    | Raise _ => pair_created
    end.

(** The cells [query_disc] returns around (300, 300). *)
Definition disc_300 : list Z :=
  Eval vm_compute in
    match cells_within 256 300 300 (deg2rad (Fdiv (Fmul (Fconst 2) 28800) (Fconst 3600)))%Z with
    | Returns cells => cells
    | Raises _ => []
    end.

(** What [run] returns for the two sources of [pair] with a tolerance of
    zero, and with a negative one. *)
Definition zero_tolerance_output : list (DiaSource.t Z unit) * list (DiaObject.t Z) :=
  Eval vm_compute in
    match run {| tolerance := 0%Z; nside := 256%Z |} pair 5 16 with
    | Ok out => out
    | Raise _ => ([], [])
    end.

Definition negative_tolerance_output : list (DiaSource.t Z unit) * list (DiaObject.t Z) :=
  Eval vm_compute in
    match run {| tolerance := (-28800)%Z; nside := 256%Z |} pair 5 16 with
    | Ok out => out
    | Raise _ => ([], [])
    end.

(** The cells [query_disc] returns around (1, 0). *)
Definition disc_1 : list Z :=
  Eval vm_compute in
    match cells_within 256 1 0 (deg2rad (Fdiv (Fmul (Fconst 2) 28800) (Fconst 3600)))%Z with
    | Returns cells => cells
    | Raises _ => []
    end.

(** The state after ccdVisit 2. *)
Definition after_visit2 : LState :=
  Eval vm_compute in
    match associateVisit config after_visit1 2 with
    | Ok st => st
    | Raise _ => after_visit1
    end.

(** Three sources of one ccdVisit, two of them at the same position, and
    what [run] returns for them. *)
Definition crowd : list (DiaSource.t Z unit) := [src 1 1 0 0; src 1 2 0 0; src 1 3 5 5]%Z.

Definition crowd_output : list (DiaSource.t Z unit) * list (DiaObject.t Z) :=
  Eval vm_compute in
    match run config crowd 5 16 with
    | Ok out => out
    | Raise _ => ([], [])
    end.

(** The first four rows of [table], and the same rows with the two
    ccdVisits interleaved. *)
Definition ordered : list (DiaSource.t Z unit) :=
  [src 1 1 0 0; src 1 2 10 0; src 2 3 1 0; src 2 4 3 0]%Z.

Definition interleaved : list (DiaSource.t Z unit) :=
  [src 2 3 1 0; src 1 1 0 0; src 2 4 3 0; src 1 2 10 0]%Z.

End Lattice.

(** * The unit sphere over the real numbers

    The two interfaces over Rocq's real numbers, to tell the distance the
    task compares (between unit vectors, along the chord) from the
    great-circle separation (along the arc). *)
Module Sphere.
Import Stdlib.Reals.Reals Stdlib.micromega.Lra.
#[local] Open Scope R_scope.

Definition Rltb (x y : R) : bool := if Rlt_dec x y then true else false.

#[global] Instance numeric : Numeric R := {|
  Fadd := Rplus;
  Fsub := Rminus;
  Fmul := Rmult;
  Fdiv := Rdiv;
  Fsqrt := sqrt;
  Flt := Rltb;
  Fconst := IZR;
  deg2rad := λ x, x * (PI / 180)
|}.

Definition rad2deg (x : R) : R := x * (180 / PI).

(** Modelled from the spec: [eq2xyz] of [associationUtils], which is not
    among the sources; the spec has it as "a coordinate-to-unit-vector
    conversion used for exact distance computation".  Colatitude [theta] and
    longitude [phi], in radians. *)
Definition unit_vector (ra dec : R) : R * R * R :=
  let phi := deg2rad ra in
  let theta := PI / 2 - deg2rad dec in
  (sin theta * cos phi, sin theta * sin phi, cos theta).

(** The great-circle separation of two positions: the angle between their
    unit vectors. *)
Definition separation (ra1 dec1 ra2 dec2 : R) : R :=
  let '(x1, y1, z1) := unit_vector ra1 dec1 in
  let '(x2, y2, z2) := unit_vector ra2 dec2 in
  acos (x1 * x2 + y1 * y2 + z1 * z2).

Definition atan2 (y x : R) : R :=
  if Rlt_dec 0 x then atan (y / x)
  else if Rlt_dec x 0 then
    if Rle_dec 0 y then atan (y / x) + PI else atan (y / x) - PI
  else if Rlt_dec 0 y then PI / 2 else - (PI / 2).

Definition vector_sum (ps : list (R * R)) : R * R * R :=
  foldr (λ p acc, let '(x, y, z) := unit_vector p.1 p.2 in
                  let '(sx, sy, sz) := acc in (x + sx, y + sy, z + sz))
        (0, 0, 0) ps.

(** The spherical average: the direction of the sum of the unit vectors;
    there is none when the sum vanishes. *)
Definition average (ps : list (R * R)) : outcome Lattice.error (R * R) :=
  let '(x, y, z) := vector_sum ps in
  let n := sqrt (x * x + y * y + z * z) in
  if Req_dec_T n 0 then Raises Lattice.EmptyAverage
  else Returns (rad2deg (atan2 y x), rad2deg (asin (z / n))).

(** The sky as one cell: the coarse filter lets every object through and the
    distances decide. *)
#[global] Instance collaborators : Collaborators R (R * R) Lattice.factory Lattice.error := {|
  toIndex := λ _ _ _, Returns 0%Z;
  query_disc := λ _ _ _ _, Returns [0%Z];
  eq2xyz := unit_vector;
  SpherePoint := λ ra dec, Returns (ra, dec);
  averageSpherePoint := average;
  getRa_asDegrees := fst;
  getDec_asDegrees := snd;
  IdFactory_makeSource := Lattice.makeSource;
  addNew_id := Lattice.next_id
|}.

(** The default configuration: half an arcsecond, [nside = 2**18]. *)
Definition config : SimpleAssociationConfig R := {| tolerance := 1 / 2; nside := 262144 |}.

(** Half an arcsecond, in degrees. *)
Definition half_arcsec : R := 1 / 2 / 3600.



End Sphere.

(** * Properties *)

(** ** The result monad *)

Section ResultLemmas.
Context {X : Type}.

Lemma bind_Ok {A B} (m : result X A) (f : A → result X B) (b : B) :
  m ≫= f = Ok b ↔ ∃ a, m = Ok a ∧ f a = Ok b.
Proof.
  destruct m as [a|e]; simpl; split.
  - intros H. by exists a.
  - by intros (a' & [= ->] & H).
  - done.
  - by intros (a' & [=] & _).
Qed.

Lemma bind_Raise {A B} (m : result X A) (f : A → result X B) (e : exn X) :
  m ≫= f = Raise e ↔ m = Raise e ∨ ∃ a, m = Ok a ∧ f a = Raise e.
Proof.
  destruct m as [a|e']; simpl; split.
  - intros H. right. by exists a.
  - by intros [[=]|(a' & [= ->] & H)].
  - intros [= ->]. by left.
  - by intros [[= ->]|(a' & [=] & _)].
Qed.

Lemma fmap_Ok {A B} (f : A → B) (m : result X A) (b : B) :
  f <$> m = Ok b ↔ ∃ a, m = Ok a ∧ b = f a.
Proof.
  destruct m as [a|e]; simpl; split.
  - intros [= <-]. by exists a.
  - by intros (a' & [= ->] & ->).
  - done.
  - by intros (a' & [=] & _).
Qed.

Lemma fmap_Raise {A B} (f : A → B) (m : result X A) (e : exn X) :
  f <$> m = Raise e ↔ m = Raise e.
Proof. destruct m; simpl; split; congruence. Qed.

Lemma call_Ok {A} (o : outcome X A) (a : A) : call o = Ok a ↔ o = Returns a.
Proof. destruct o; simpl; split; congruence. Qed.

Lemma call_Raise {A} (o : outcome X A) (e : exn X) :
  call o = Raise e ↔ ∃ x, o = Raises x ∧ e = Collaborator x.
Proof.
  destruct o as [a|x]; simpl; split.
  - done.
  - by intros (x & [=] & _).
  - intros [= <-]. by exists x.
  - by intros (x' & [= ->] & ->).
Qed.

Lemma getitem_Ok {A} (l : list A) (i : nat) (a : A) :
  getitem (X:=X) l i = Ok a ↔ l !! i = Some a.
Proof. unfold getitem. destruct (l !! i); split; congruence. Qed.

Lemma getitem_Raise {A} (l : list A) (i : nat) (e : exn X) :
  getitem l i = Raise e ↔ length l ≤ i ∧ e = IndexError.
Proof.
  unfold getitem. destruct (l !! i) eqn:E; split.
  - done.
  - intros [H _]. apply lookup_lt_Some in E. lia.
  - intros [= <-]. by apply lookup_ge_None in E.
  - by intros [_ ->].
Qed.

Lemma setitem_Ok {A} (l l' : list A) (i : nat) (a : A) :
  setitem (X:=X) l i a = Ok l' ↔ i < length l ∧ l' = <[i:=a]> l.
Proof.
  unfold setitem. case_decide; split.
  - by intros [= <-].
  - by intros [_ ->].
  - done.
  - intros [? _]. lia.
Qed.

Lemma setitem_Raise {A} (l : list A) (i : nat) (a : A) (e : exn X) :
  setitem l i a = Raise e ↔ length l ≤ i ∧ e = IndexError.
Proof.
  unfold setitem. case_decide; split.
  - done.
  - intros [? _]. lia.
  - intros [= <-]. split; [lia|done].
  - by intros [_ ->].
Qed.

Lemma mapM_Ok_length {A B} (f : A → result X B) (l : list A) (k : list B) :
  mapM f l = Ok k → length k = length l.
Proof.
  revert k. induction l as [|a l IH]; intros k; simpl.
  - by intros [= <-].
  - intros (b & _ & (k' & Hk & [= <-])%bind_Ok)%bind_Ok. simpl. f_equal. by apply IH.
Qed.

Lemma mapM_Ok_lookup {A B} (f : A → result X B) (l : list A) (k : list B) i a b :
  mapM f l = Ok k → l !! i = Some a → k !! i = Some b → f a = Ok b.
Proof.
  revert k i. induction l as [|a' l IH]; intros k i; simpl; [done|].
  intros (b' & Hb & (k' & Hk & [= <-])%bind_Ok)%bind_Ok.
  destruct i as [|i]; simpl.
  - by intros [= ->] [= ->].
  - by apply IH.
Qed.

Lemma mapM_Raise {A B} (f : A → result X B) (l : list A) (e : exn X) :
  mapM f l = Raise e → ∃ a, a ∈ l ∧ f a = Raise e.
Proof.
  induction l as [|a l IH]; simpl; [done|].
  intros [H|(b & _ & [H|(k & _ & [=])]%bind_Raise)]%bind_Raise.
  - exists a. split; [left|done].
  - destruct (IH H) as (a' & ? & ?). exists a'. split; [by right|done].
Qed.

End ResultLemmas.

Section AssociationProofs.
Context {F SP IdF X Payload : Type}.
Context `{!Numeric F} `{!Collaborators F SP IdF X}.

Abbreviation Row := (DiaSource.t F Payload).
Abbreviation Obj := (DiaObject.t F).
Abbreviation St := (State F SP IdF Payload).
Abbreviation Config := (SimpleAssociationConfig F).

(** ** What the two operations do to the state *)

Lemma addNewDiaObject_inv cfg (r : Row) v s (st st' : St) :
  addNewDiaObject cfg r v s st = Ok st' →
  ∃ hp sp id idf,
    toIndex (nside cfg) (DiaSource.ra r) (DiaSource.decl r) = Returns hp
    ∧ SpherePoint (DiaSource.ra r) (DiaSource.decl r) = Returns sp
    ∧ addNew_id (idCat st) = Returns (id, idf)
    ∧ st' = {| diaSources := loc_set (diaSources st) v s id;
               diaObjectCat := diaObjectCat st
                 ++ [createDiaObject id (DiaSource.ra r) (DiaSource.decl r)];
               diaObjectCoords := diaObjectCoords st ++ [[sp]];
               healPixIndices := healPixIndices st ++ [hp];
               idCat := idf |}.
Proof.
  unfold addNewDiaObject.
  intros (hp & Hhp%call_Ok & (sp & Hsp%call_Ok
    & ([id idf] & Hid%call_Ok & [= <-])%bind_Ok)%bind_Ok)%bind_Ok.
  by exists hp, sp, id, idf.
Qed.

Lemma updateCatalogs_inv cfg m (r : Row) v s (st st' : St) :
  updateCatalogs cfg m r v s st = Ok st' →
  ∃ sp h q o hp,
    SpherePoint (DiaSource.ra r) (DiaSource.decl r) = Returns sp
    ∧ diaObjectCoords st !! m = Some h
    ∧ averageSpherePoint (h ++ [sp]) = Returns q
    ∧ diaObjectCat st !! m = Some o
    ∧ toIndex (nside cfg) (getRa_asDegrees q) (getDec_asDegrees q) = Returns hp
    ∧ m < length (healPixIndices st)
    ∧ st' = {| diaSources := loc_set (diaSources st) v s (DiaObject.diaObjectId o);
               diaObjectCat :=
                 <[m := moved o (getRa_asDegrees q) (getDec_asDegrees q)]> (diaObjectCat st);
               diaObjectCoords := <[m := h ++ [sp]]> (diaObjectCoords st);
               healPixIndices := <[m := hp]> (healPixIndices st);
               idCat := idCat st |}.
Proof.
  unfold updateCatalogs.
  intros (sp & Hsp%call_Ok & (h & Hh%getitem_Ok & (q & Hq%call_Ok & (o & Ho%getitem_Ok
    & (hp & Hhp%call_Ok & (hps & [Hm ->]%setitem_Ok
    & [= <-])%bind_Ok)%bind_Ok)%bind_Ok)%bind_Ok)%bind_Ok)%bind_Ok.
  by exists sp, h, q, o, hp.
Qed.

(** ** The parallel lists *)

Lemma parallel_inv_initial (tbl : list Row) (idf : IdF) :
  parallel_inv (initial tbl idf : St).
Proof. by repeat split. Qed.

Lemma parallel_inv_create cfg (r : Row) v s (st st' : St) :
  parallel_inv st → addNewDiaObject cfg r v s st = Ok st' → parallel_inv st'.
Proof.
  intros (H1 & H2 & H3) (hp & sp & id & idf & _ & _ & _ & ->)%addNewDiaObject_inv.
  repeat split; simpl.
  - rewrite !length_app. simpl. lia.
  - rewrite !length_app. simpl. lia.
  - intros i o h [[Hi Ho]|[Hi <-]]%lookup_snoc_Some [[Hi' Hh]|[Hi' <-]]%lookup_snoc_Some;
      [by eapply H3|lia|lia|done].
Qed.

Lemma parallel_inv_attach cfg m (r : Row) v s (st st' : St) :
  parallel_inv st → updateCatalogs cfg m r v s st = Ok st' → parallel_inv st'.
Proof.
  intros (H1 & H2 & H3)
    (sp & h & q & o & hp & _ & Hh & _ & Ho & _ & Hm & ->)%updateCatalogs_inv.
  repeat split; simpl.
  - by rewrite !length_insert.
  - by rewrite !length_insert.
  - intros i o' h' [(<- & <- & _)|[Hne Ho']]%list_lookup_insert_Some
      [(Heq & <- & _)|[Hne' Hh']]%list_lookup_insert_Some; try done.
    + simpl. rewrite length_app. simpl. rewrite (H3 m o h Ho Hh). lia.
    + by eapply H3.
Qed.

Lemma parallel_inv_step cfg (st : St) r i st' :
  parallel_inv st → step cfg st r i st' → parallel_inv st'.
Proof.
  intros Hinv Hstep. destruct Hstep as [st r st' H|st r m st' H].
  - by eapply parallel_inv_create.
  - by eapply parallel_inv_attach.
Qed.

Lemma steps_parallel_inv cfg (st : St) trace st' :
  parallel_inv st → steps cfg st trace st' → parallel_inv st'.
Proof.
  intros Hinv Hsteps. induction Hsteps as [st|st r i st1 rs st2 Hstep _ IH]; [done|].
  apply IH. by eapply parallel_inv_step.
Qed.

(** C10. After every creation and every attachment the catalog, the
    coordinate histories and the healpix indices have one length, and each
    object's [nDiaSources] is the length of its coordinate history: it holds
    at the start of [run] and every completed [addNewDiaObject] or
    [updateCatalogs] keeps it, whatever row and index it is called with. *)
Theorem parallel_state_invariant cfg (tbl : list Row) (idf : IdF) trace (st : St) :
  steps cfg (initial tbl idf) trace st → parallel_inv st.
Proof.
  intros Hsteps. pose proof (parallel_inv_initial tbl idf) as Hinit.
  induction Hsteps as [st|st r i st1 trace st2 Hstep _ IH]; [done|].
  apply IH. by eapply parallel_inv_step.
Qed.

(** ** Mean position and cell *)



Lemma sources_of_snoc j (trace : list (Row * nat)) r i :
  sources_of j (trace ++ [(r, i)])
  = sources_of j trace ++ (if decide (i = j) then [r] else []).
Proof.
  unfold sources_of. rewrite filter_app, fmap_app. f_equal.
  rewrite filter_cons, filter_nil. simpl. by case_decide.
Qed.

Lemma history_inv_step cfg pre (st : St) r i st' :
  parallel_inv st → history_inv pre st → step cfg st r i st' →
  history_inv (pre ++ [(r, i)]) st'.
Proof.
  intros (H1 & _ & _) Hinv Hstep j. specialize (Hinv j).
  rewrite sources_of_snoc. destruct Hstep as [st r st' H|st r m st' H].
  - apply addNewDiaObject_inv in H as (hp & sp & id & idf & _ & Hsp & _ & ->). simpl.
    rewrite H1. destruct (decide (j < length (diaObjectCoords st))) as [Hlt|Hge].
    + rewrite lookup_app_l by done. rewrite decide_False by lia. by rewrite app_nil_r.
    + rewrite lookup_ge_None_2 in Hinv by lia. simpl in Hinv.
      apply Forall2_nil_inv_l in Hinv as ->. simpl.
      case_decide as Hj.
      * subst j. rewrite list_lookup_middle by done. simpl. by repeat constructor.
      * rewrite lookup_ge_None_2; [constructor|]. rewrite length_app. simpl. lia.
  - apply updateCatalogs_inv in H as (sp & h & q & o & hp & Hsp & Hh & _ & _ & _ & _ & ->).
    simpl. case_decide as Hj.
    + subst j. rewrite Hh in Hinv. simpl in Hinv.
      rewrite list_lookup_insert_eq by (by eapply lookup_lt_Some). simpl.
      apply Forall2_app; [done|]. by repeat constructor.
    + rewrite list_lookup_insert_ne by done. by rewrite app_nil_r.
Qed.

Lemma steps_history cfg pre (st : St) trace st' :
  parallel_inv st → history_inv pre st → steps cfg st trace st' →
  history_inv (pre ++ trace) st'.
Proof.
  intros Hpar Hinv Hsteps. revert pre Hpar Hinv.
  induction Hsteps as [st|st r i st1 trace st2 Hstep _ IH]; intros pre Hpar Hinv.
  - by rewrite app_nil_r.
  - rewrite (cons_middle _ pre trace), app_assoc. apply IH.
    + by eapply parallel_inv_step.
    + by eapply history_inv_step.
Qed.





(** An object counts the sources that went to it. *)
Lemma nDiaSources_counts_sources cfg (tbl : list Row) (idf : IdF) trace (st : St) i o :
  steps cfg (initial tbl idf) trace st →
  diaObjectCat st !! i = Some o →
  DiaObject.nDiaSources o = Z.of_nat (length (sources_of i trace)).
Proof.
  intros Hsteps Ho.
  assert (parallel_inv (initial tbl idf : St)) as Hpar by apply parallel_inv_initial.
  pose proof (steps_parallel_inv cfg _ _ _ Hpar Hsteps) as (H1 & _ & H3).
  assert (history_inv trace st) as Hhist.
  { apply (steps_history cfg [] _ _ _ Hpar); [|done]. intros j. constructor. }
  specialize (Hhist i).
  destruct (diaObjectCoords st !! i) as [h|] eqn:Hh.
  - simpl in Hhist. rewrite (H3 i o h Ho Hh). f_equal. by eapply Forall2_length.
  - apply lookup_ge_None in Hh. apply lookup_lt_Some in Ho. lia.
Qed.

(** ** The frame of the source table *)

Lemma loc_set_frame (tbl : list Row) v s id :
  frame <$> loc_set tbl v s id = frame <$> tbl.
Proof.
  unfold loc_set. rewrite <-list_fmap_compose. apply list_fmap_ext.
  intros i r _. simpl. by case_decide.
Qed.

Lemma step_frame cfg (st : St) r i st' :
  step cfg st r i st' → frame <$> diaSources st' = frame <$> diaSources st.
Proof.
  intros [st0 r0 st1 H|st0 r0 m st1 H].
  - apply addNewDiaObject_inv in H as (hp & sp & id & idf & _ & _ & _ & ->).
    apply loc_set_frame.
  - apply updateCatalogs_inv in H as (sp & h & q & o & hp & _ & _ & _ & _ & _ & _ & ->).
    apply loc_set_frame.
Qed.

Lemma steps_frame cfg (st : St) trace st' :
  steps cfg st trace st' → frame <$> diaSources st' = frame <$> diaSources st.
Proof.
  induction 1 as [st|st r i st1 trace st2 Hstep _ IH]; [done|].
  rewrite IH. by eapply step_frame.
Qed.

Lemma steps_app cfg (st : St) rs1 st1 rs2 st2 :
  steps cfg st rs1 st1 → steps cfg st1 rs2 st2 → steps cfg st (rs1 ++ rs2) st2.
Proof.
  induction 1 as [st|st r i st' rs st1 Hstep _ IH]; intros H2; [done|].
  simpl. econstructor; [done|]. by apply IH.
Qed.

Lemma frame_ccdVisitId (r1 r2 : Row) :
  frame r1 = frame r2 → DiaSource.ccdVisitId r1 = DiaSource.ccdVisitId r2.
Proof. unfold frame. by intros [= -> _ _ _ _]. Qed.

Lemma loc_visit_frame (t1 t2 : list Row) v :
  frame <$> t1 = frame <$> t2 →
  frame <$> loc_visit t1 v = frame <$> loc_visit t2 v.
Proof.
  unfold loc_visit. revert t2.
  induction t1 as [|r1 t1 IH]; intros [|r2 t2]; simpl; try done.
  intros H. injection H as Hv Hs Hra Hdec Hcol Ht. rewrite !filter_cons, <-Hv.
  case_decide; simpl; [f_equal; [unfold frame; congruence|]|]; by apply IH.
Qed.

Lemma index_levels0_frame (t1 t2 : list Row) :
  frame <$> t1 = frame <$> t2 → index_levels0 t1 = index_levels0 t2.
Proof.
  intros H. unfold index_levels0. do 2 f_equal.
  assert (DiaSource.ccdVisitId <$> t1 = (λ x, x.1.1.1.1) <$> (frame <$> t1)) as ->
    by (by rewrite <-list_fmap_compose).
  rewrite H. by rewrite <-list_fmap_compose.
Qed.

Lemma bind_loc_visit_frame (t1 t2 : list Row) (vs : list Z) :
  frame <$> t1 = frame <$> t2 →
  frame <$> (vs ≫= loc_visit t1) = frame <$> (vs ≫= loc_visit t2).
Proof.
  intros H. induction vs as [|v vs IH]; [done|].
  rewrite !bind_cons, !fmap_app, IH. f_equal. by apply loc_visit_frame.
Qed.

(** ** From [run] to a sequence of operations *)

Lemma np_count_isin (m : nat) (used : list nat) :
  np_count (np_isin [m] used) < 1 ↔ m ∉ used.
Proof.
  unfold np_count, np_isin. simpl. rewrite filter_cons, filter_nil.
  destruct (decide (bool_decide (m ∈ used) = true)) as [H|H]; simpl.
  - apply bool_decide_eq_true in H. split; [lia|done].
  - split; [|lia]. intros _ Hin. apply H. by apply bool_decide_eq_true.
Qed.

(** What [associateSource] comes down to when it returns. *)
Lemma associateSource_cases cfg v (st : St) used (r : Row) st' used' :
  associateSource cfg v (st, used) r = Ok (st', used') →
  (addNewDiaObject cfg r v (DiaSource.diaSourceId r) st = Ok st' ∧ used' = used)
  ∨ ∃ m dists matches least a,
      updateCatalogs cfg m r v (DiaSource.diaSourceId r) st = Ok st'
      ∧ used' = used ++ [m] ∧ (m ∉ used)
      ∧ findMatches cfg (DiaSource.ra r) (DiaSource.decl r)
          (Fmul (Fconst 2) (tolerance cfg)) (healPixIndices st) (diaObjectCat st)
        = Ok (Some (dists, matches))
      ∧ np_min (X:=X) dists = Ok least ∧ Flt least (match_radius cfg) = true
      ∧ np_argmin (X:=X) dists = Ok a ∧ matches !! a = Some m.
Proof.
  unfold associateSource.
  intros ([[dists matches]|] & Hfind & H)%bind_Ok.
  - apply bind_Ok in H as (least & Hleast & H).
    destruct (Flt least (match_radius cfg)) eqn:Hlt.
    + apply bind_Ok in H as (a & Ha & (m & Hm%getitem_Ok & H)%bind_Ok).
      case_decide as Hused.
      * apply bind_Ok in H as (st1 & Hup & [= <- <-]).
        right. exists m, dists, matches, least, a.
        by apply np_count_isin in Hused.
      * apply bind_Ok in H as (st1 & Hnew & [= <- <-]). by left.
    + apply bind_Ok in H as (st1 & Hnew & [= <- <-]). by left.
  - apply bind_Ok in H as (st1 & Hnew & [= <- <-]). by left.
Qed.

Lemma foldM_create_steps cfg v (st : St) (rs : list Row) st' :
  Forall (λ r, DiaSource.ccdVisitId r = v) rs →
  foldM (λ st diaSrc, addNewDiaObject cfg diaSrc v (DiaSource.diaSourceId diaSrc) st)
        st rs = Ok st' →
  ∃ trace, steps cfg st trace st' ∧ trace.*1 = rs.
Proof.
  intros Hv. revert st. induction Hv as [|r rs Hr _ IH]; intros st; simpl.
  - intros [= <-]. exists []. split; [constructor|done].
  - intros (st1 & H1 & (trace & Htr & <-)%IH)%bind_Ok. subst v.
    exists ((r, length (diaObjectCat st)) :: trace). split; [|done].
    econstructor; [by apply step_create|done].
Qed.

Lemma foldM_associate_steps cfg v (st : St) used (rs : list Row) st' used' :
  Forall (λ r, DiaSource.ccdVisitId r = v) rs →
  foldM (associateSource cfg v) (st, used) rs = Ok (st', used') →
  ∃ trace, steps cfg st trace st' ∧ trace.*1 = rs.
Proof.
  intros Hv. revert st used. induction Hv as [|r rs Hr _ IH]; intros st used; cbn [foldM].
  - intros [= <- <-]. exists []. split; [constructor|done].
  - intros ([st1 used1] & H1 & (trace & Htr & <-)%IH)%bind_Ok. subst v.
    apply associateSource_cases in H1 as [[H1 _]|(m & ? & ? & ? & ? & H1 & _)].
    + exists ((r, length (diaObjectCat st)) :: trace). split; [|done].
      econstructor; [by apply step_create|done].
    + exists ((r, m) :: trace). split; [|done].
      econstructor; [by eapply step_attach|done].
Qed.

Lemma loc_visit_Forall (tbl : list Row) v :
  Forall (λ r, DiaSource.ccdVisitId r = v) (loc_visit tbl v).
Proof. apply Forall_forall. by intros r [? _]%list_elem_of_filter. Qed.

Lemma associateVisit_steps cfg (st : St) v st' :
  associateVisit cfg st v = Ok st' →
  ∃ trace, steps cfg st trace st' ∧ trace.*1 = loc_visit (diaSources st) v.
Proof.
  unfold associateVisit. case_decide.
  - apply foldM_create_steps, loc_visit_Forall.
  - intros ([st1 used1] & H1 & ->)%fmap_Ok.
    eapply foldM_associate_steps; [apply loc_visit_Forall|done].
Qed.

Lemma visits_steps cfg (st : St) (vs : list Z) st' :
  foldM (associateVisit cfg) st vs = Ok st' →
  ∃ trace, steps cfg st trace st'
         ∧ frame <$> trace.*1 = frame <$> (vs ≫= loc_visit (diaSources st)).
Proof.
  revert st. induction vs as [|v vs IH]; intros st; cbn [foldM].
  - intros [= <-]. exists []. split; [constructor|done].
  - intros (st1 & (tr1 & H1 & Htr1)%associateVisit_steps
      & (trace & Htr & Hfr)%IH)%bind_Ok.
    exists (tr1 ++ trace). split.
    + by eapply steps_app.
    + rewrite bind_cons, fmap_app, !fmap_app, Hfr, Htr1. f_equal.
      apply bind_loc_visit_frame. by eapply steps_frame.
Qed.

Lemma run_steps cfg (tbl : list Row) tp sb tbl' objs :
  run cfg tbl tp sb = Ok (tbl', objs) →
  ∃ idf trace (st : St),
    IdFactory_makeSource tp (64 - sb) = Returns idf
    ∧ steps cfg (initial tbl idf) trace st
    ∧ frame <$> trace.*1 = frame <$> schedule tbl
    ∧ tbl' = diaSources st ∧ objs = diaObjectCat st.
Proof.
  unfold run.
  intros (idf & Hidf%call_Ok
    & (st & (rs & Hrs & Hfr)%visits_steps & [= <- <-])%bind_Ok)%bind_Ok.
  by exists idf, rs, st.
Qed.

(** The schedule takes every row of the table once. *)
Lemma bind_filter_Permutation (vs : list Z) (tbl : list Row) :
  NoDup vs → (∀ r, r ∈ tbl → DiaSource.ccdVisitId r ∈ vs) →
  vs ≫= loc_visit tbl ≡ₚ tbl.
Proof.
  intros Hnd. revert tbl. induction Hnd as [|v vs Hv Hnd IH]; intros tbl Hall.
  - destruct tbl as [|r tbl]; [done|].
    specialize (Hall r (list_elem_of_here _ _)). by apply elem_of_nil in Hall.
  - rewrite bind_cons.
    rewrite <-(filter_app_complement (λ r, DiaSource.ccdVisitId r = v) tbl) at 3.
    unfold loc_visit at 1. apply Permutation_app_head.
    rewrite <-(IH (filter (λ r, ¬ DiaSource.ccdVisitId r = v) tbl)).
    + assert (∀ v', v' ∈ vs →
        loc_visit tbl v' = loc_visit (filter (λ r, ¬ DiaSource.ccdVisitId r = v) tbl) v')
        as Heq.
      { intros v' Hv'. unfold loc_visit. rewrite list_filter_filter_l; [done|].
        intros r -> ->. done. }
      clear IH Hall. induction vs as [|v' vs IHvs]; [done|].
      rewrite !bind_cons, Heq by left.
      apply Permutation_app_head, IHvs.
      * intros ?. apply Hv. by right.
      * by inversion Hnd.
      * intros ??. apply Heq. by right.
    + intros r [Hne Hr]%list_elem_of_filter.
      specialize (Hall r Hr). apply elem_of_cons in Hall as [?|?]; done.
Qed.

Lemma schedule_Permutation (tbl : list Row) : schedule tbl ≡ₚ tbl.
Proof.
  unfold schedule. apply bind_filter_Permutation.
  - unfold index_levels0. rewrite merge_sort_Permutation. apply NoDup_remove_dups.
  - intros r Hr. unfold index_levels0.
    rewrite merge_sort_Permutation, elem_of_remove_dups.
    apply list_elem_of_fmap. by exists r.
Qed.

(** ** Counting sources *)

Lemma total_snoc (objs : list Obj) (o : Obj) :
  total_nDiaSources (objs ++ [o]) = (total_nDiaSources objs + DiaObject.nDiaSources o)%Z.
Proof.
  unfold total_nDiaSources. rewrite fmap_app.
  induction (DiaObject.nDiaSources <$> objs) as [|x l IH]; simpl in *; lia.
Qed.

Lemma total_insert (objs : list Obj) (m : nat) (o o' : Obj) :
  objs !! m = Some o →
  total_nDiaSources (<[m:=o']> objs)
  = (total_nDiaSources objs - DiaObject.nDiaSources o + DiaObject.nDiaSources o')%Z.
Proof.
  unfold total_nDiaSources. revert m.
  induction objs as [|o0 objs IH]; intros [|m]; simpl; try done.
  - intros [= ->]. lia.
  - intros H. specialize (IH _ H). unfold fmap in *. lia.
Qed.

Lemma step_total cfg (st : St) r i st' :
  step cfg st r i st' →
  total_nDiaSources (diaObjectCat st') = (total_nDiaSources (diaObjectCat st) + 1)%Z.
Proof.
  intros [st0 r0 st1 H|st0 r0 m st1 H].
  - apply addNewDiaObject_inv in H as (hp & sp & id & idf & _ & _ & _ & ->).
    simpl. by rewrite total_snoc.
  - apply updateCatalogs_inv in H as (sp & h & q & o & hp & _ & _ & _ & Ho & _ & _ & ->).
    simpl. rewrite (total_insert _ _ _ _ Ho). simpl. lia.
Qed.

Lemma steps_total cfg (st : St) rs st' :
  steps cfg st rs st' →
  total_nDiaSources (diaObjectCat st')
  = (total_nDiaSources (diaObjectCat st) + Z.of_nat (length rs))%Z.
Proof.
  induction 1 as [st|st r i st1 rs st2 Hstep _ IH]; simpl; [lia|].
  rewrite IH, (step_total _ _ _ _ _ Hstep). lia.
Qed.

(** C1. Conservation: when [run] returns, the [nDiaSources] of the objects
    it returns add up to the number of rows of the source table it was
    given. *)
Theorem conservation cfg (tbl : list Row) tp sb tbl' objs :
  run cfg tbl tp sb = Ok (tbl', objs) →
  total_nDiaSources objs = Z.of_nat (length tbl).
Proof.
  intros (idf & rs & st & _ & Hsteps & Hfr & _ & ->)%run_steps.
  rewrite (steps_total _ _ _ _ Hsteps). simpl.
  apply (f_equal length) in Hfr. rewrite !length_fmap in Hfr.
  by rewrite Hfr, schedule_Permutation.
Qed.

(** C9. Frame: when [run] returns, the table it returns has the rows of the
    table it was given, in the same order, and every column of every row but
    [diaObjectId] holds what it held. *)
Theorem frame_preserved cfg (tbl : list Row) tp sb tbl' objs :
  run cfg tbl tp sb = Ok (tbl', objs) →
  frame <$> tbl' = frame <$> tbl.
Proof.
  intros (idf & rs & st & _ & Hsteps & _ & -> & _)%run_steps.
  by rewrite (steps_frame _ _ _ _ Hsteps).
Qed.

(** ** Assigned ids *)

Lemma elem_of_loc_set (tbl : list Row) v s id r' :
  r' ∈ loc_set tbl v s id →
  ∃ r, r ∈ tbl ∧ key r' = key r
     ∧ (key r = (v, s) ∧ DiaSource.diaObjectId r' = Some id ∨ key r ≠ (v, s) ∧ r' = r).
Proof.
  unfold loc_set. intros (r & -> & Hr)%list_elem_of_fmap. exists r.
  split; [done|]. case_decide as Hk.
  - split; [done|]. left. destruct Hk as [<- <-]. done.
  - split; [done|]. right. split; [|done]. unfold key. intros [= ? ?]. by apply Hk.
Qed.

Lemma assigned_snoc (objs : list Obj) o (r : Row) :
  assigned objs r → assigned (objs ++ [o]) r.
Proof.
  intros (id & Hid & o' & Ho' & Hoid). exists id. split; [done|].
  exists o'. split; [|done]. apply elem_of_app. by left.
Qed.

Lemma assigned_insert (objs : list Obj) m o ra dec (r : Row) :
  objs !! m = Some o → assigned objs r → assigned (<[m := moved o ra dec]> objs) r.
Proof.
  intros Hm (id & Hid & o' & (i & Hi)%list_elem_of_lookup & Hoid). exists id.
  split; [done|]. destruct (decide (i = m)) as [->|Hne].
  - exists (moved o ra dec). split.
    + apply list_elem_of_lookup. exists m. apply list_lookup_insert_eq.
      by eapply lookup_lt_Some.
    + simpl. congruence.
  - exists o'. split; [|done]. apply list_elem_of_lookup. exists i.
    by rewrite list_lookup_insert_ne.
Qed.

Lemma step_assigned cfg P (st : St) r i st' :
  assigned_on P st → step cfg st r i st' →
  assigned_on (λ k, P k ∨ k = key r) st'.
Proof.
  intros Hinv Hstep. destruct Hstep as [st r st' H|st r m st' H].
  - apply addNewDiaObject_inv in H as (hp & sp & id & idf & _ & _ & _ & ->).
    intros r'; simpl.
    intros (r0 & Hr0 & Hkey & [[Hk Hid]|[Hk ->]])%elem_of_loc_set HP.
    + exists id. split; [done|].
      eexists. split; [apply elem_of_app; right; by left|done].
    + apply assigned_snoc, Hinv; [done|]. destruct HP as [?|?]; [done|].
      by destruct Hk.
  - apply updateCatalogs_inv in H as (sp & h & q & o & hp & _ & _ & _ & Ho & _ & _ & ->).
    intros r'; simpl.
    intros (r0 & Hr0 & Hkey & [[Hk Hid]|[Hk ->]])%elem_of_loc_set HP.
    + exists (DiaObject.diaObjectId o). split; [done|].
      exists (moved o (getRa_asDegrees q) (getDec_asDegrees q)). split; [|done].
      apply list_elem_of_lookup. exists m. apply list_lookup_insert_eq.
      by eapply lookup_lt_Some.
    + apply assigned_insert; [done|]. apply Hinv; [done|].
      destruct HP as [?|?]; [done|]. by destruct Hk.
Qed.

Lemma steps_assigned cfg P (st : St) trace st' :
  assigned_on P st → steps cfg st trace st' →
  assigned_on (λ k, P k ∨ k ∈ key <$> trace.*1) st'.
Proof.
  intros Hinv Hsteps. revert P Hinv.
  induction Hsteps as [st|st r i st1 rs st2 Hstep _ IH]; intros P Hinv.
  - intros r Hr [HP|Hk]; [by apply Hinv|]. by apply elem_of_nil in Hk.
  - intros r' Hr' HP.
    apply (IH _ (step_assigned _ _ _ _ _ _ Hinv Hstep)); [done|].
    destruct HP as [HP|Hk]; [by left; left|].
    rewrite !fmap_cons in Hk. simpl in Hk. apply elem_of_cons in Hk as [->|Hk]; [left; by right|by right].
Qed.

Lemma key_frame (l : list Row) : key <$> l = (λ x, (x.1.1.1.1, x.1.1.1.2)) <$> (frame <$> l).
Proof. by rewrite <-list_fmap_compose. Qed.

(** C4. Exclusivity: when [run] returns, each row of the table it was given
    is, in the table it returns, a row whose [diaObjectId] cell holds one id,
    and that id is the [diaObjectId] of a row of the returned object
    table. *)
Theorem exclusivity cfg (tbl : list Row) tp sb tbl' objs :
  run cfg tbl tp sb = Ok (tbl', objs) →
  ∀ i r, tbl !! i = Some r →
    ∃ r', tbl' !! i = Some r' ∧ frame r' = frame r ∧ assigned objs r'.
Proof.
  intros (idf & rs & st & _ & Hsteps & Hfr & -> & ->)%run_steps i r Hi.
  pose proof (steps_frame _ _ _ _ Hsteps) as Hframe. simpl in Hframe.
  assert ((frame <$> diaSources st) !! i = Some (frame r)) as Hi'
    by (by rewrite Hframe, list_lookup_fmap, Hi).
  rewrite list_lookup_fmap in Hi'.
  destruct (diaSources st !! i) as [r'|] eqn:Hr'; [|done].
  injection Hi' as Hv Hs Hra Hdec Hcol. exists r'. split; [done|].
  split; [unfold frame; congruence|].
  assert (assigned_on (λ _, False) (initial tbl idf : St)) as Hinit by (by intros ?).
  apply (steps_assigned _ _ _ _ _ Hinit Hsteps).
  - by eapply list_elem_of_lookup_2.
  - right. rewrite key_frame, Hfr, <-key_frame, schedule_Permutation.
    assert (key r' = key r) as -> by (unfold key; congruence).
    apply list_elem_of_fmap. exists r. split; [done|]. by eapply list_elem_of_lookup_2.
Qed.

(** ** Matching *)

Lemma argwhere_from_bound i bs m :
  m ∈ argwhere_from i bs → i ≤ m < i + length bs.
Proof.
  revert i. induction bs as [|b bs IH]; intros i; simpl.
  - by intros ?%elem_of_nil.
  - destruct b.
    + intros [->|H%IH]%elem_of_cons; lia.
    + intros H%IH. lia.
Qed.

Lemma argmin_scan_lookup (l : list F) best bestv i xs :
  l !! best = Some bestv →
  (∀ k x, xs !! k = Some x → l !! (i + k) = Some x) →
  l !! (argmin_scan best bestv i xs).1 = Some (argmin_scan best bestv i xs).2.
Proof.
  revert best bestv i. induction xs as [|x xs IH]; intros best bestv i Hbest Hxs; simpl.
  - done.
  - assert (∀ k y, xs !! k = Some y → l !! (S i + k) = Some y) as Hxs'.
    { intros k y Hk. specialize (Hxs (S k) y Hk). by rewrite Nat.add_succ_r in Hxs. }
    destruct (Flt x bestv); apply IH; try done.
    specialize (Hxs 0 x eq_refl). by rewrite Nat.add_0_r in Hxs.
Qed.

Lemma argmin_scan_bound best bestv i xs :
  best < i → (argmin_scan best bestv i xs).1 < i + length xs.
Proof.
  revert best bestv i. induction xs as [|x xs IH]; intros best bestv i Hb; simpl.
  - lia.
  - destruct (Flt x bestv).
    + specialize (IH i x (S i)). lia.
    + specialize (IH best bestv (S i)). lia.
Qed.

(** [np.min(dists)] is [dists[np.argmin(dists)]]. *)
Lemma np_min_argmin (dists : list F) least a :
  np_min (X:=X) dists = Ok least → np_argmin (X:=X) dists = Ok a →
  dists !! a = Some least.
Proof.
  destruct dists as [|d dists]; simpl; [done|]. intros [= <-] [= <-].
  apply argmin_scan_lookup; [done|]. by intros k x Hk.
Qed.

Lemma np_argmin_bound (dists : list F) a :
  np_argmin (X:=X) dists = Ok a → a < length dists.
Proof.
  destruct dists as [|d dists]; simpl; [done|]. intros [= <-].
  pose proof (argmin_scan_bound 0 d 1 dists). lia.
Qed.

Lemma np_min_Raise (dists : list F) e : np_min (X:=X) dists = Raise e → dists = [].
Proof. by destruct dists. Qed.

Lemma np_argmin_Raise (dists : list F) e : np_argmin (X:=X) dists = Raise e → dists = [].
Proof. by destruct dists. Qed.

Lemma findMatches_Some cfg ra dec tol hp (cat : list Obj) dists matches :
  findMatches cfg ra dec tol hp cat = Ok (Some (dists, matches)) →
  matches ≠ [] ∧ length dists = length matches
  ∧ (∀ m, m ∈ matches → m < length hp)
  ∧ ∀ a m, matches !! a = Some m →
      ∃ o, cat !! m = Some o
         ∧ dists !! a
           = Some (unit_vector_distance ra dec (DiaObject.ra o) (DiaObject.decl o)).
Proof.
  unfold findMatches. intros (cells & _ & H)%bind_Ok.
  case_decide as Hlen; [done|].
  apply bind_Ok in H as (ds & Hds & [= <- <-]).
  pose proof (mapM_Ok_length _ _ _ Hds) as Hlen'.
  repeat split.
  - intros Heq. rewrite Heq in Hlen. simpl in Hlen. lia.
  - done.
  - intros m Hm%argwhere_from_bound. unfold np_isin in Hm.
    rewrite length_fmap in Hm. lia.
  - intros a m Ha.
    destruct (ds !! a) as [d|] eqn:Hd.
    + pose proof (mapM_Ok_lookup _ _ _ _ _ _ Hds Ha Hd) as Hf.
      apply bind_Ok in Hf as (o & Ho%getitem_Ok & [= <-]). by exists o.
    + apply lookup_ge_None in Hd. apply lookup_lt_Some in Ha. lia.
Qed.

(** C3. The distance bound the code keeps: when [associateSource] returns
    without a new object in the catalog, it attached the source to an object
    [m], and the distance of the unit vectors of the source and of that
    object's position before the attachment is below
    [deg2rad(tolerance/3600)] by [Flt]; and when the least distance is not
    below it, as when the two are equal, the source is given to
    [addNewDiaObject]. *)
Theorem distance_bound cfg v (st : St) used (r : Row) :
  (∀ st' used',
     associateSource cfg v (st, used) r = Ok (st', used') →
     length (diaObjectCat st') = length (diaObjectCat st) →
     ∃ m o, diaObjectCat st !! m = Some o ∧ used' = used ++ [m]
          ∧ updateCatalogs cfg m r v (DiaSource.diaSourceId r) st = Ok st'
          ∧ Flt (unit_vector_distance (DiaSource.ra r) (DiaSource.decl r)
                   (DiaObject.ra o) (DiaObject.decl o))
                (match_radius cfg) = true)
  ∧ (∀ dists matches least,
       findMatches cfg (DiaSource.ra r) (DiaSource.decl r)
         (Fmul (Fconst 2) (tolerance cfg)) (healPixIndices st) (diaObjectCat st)
       = Ok (Some (dists, matches)) →
       np_min (X:=X) dists = Ok least →
       Flt least (match_radius cfg) = false →
       associateSource cfg v (st, used) r
       = (λ st', (st', used)) <$> addNewDiaObject cfg r v (DiaSource.diaSourceId r) st).
Proof.
  split.
  - intros st' used' [[Hnew _]|H]%associateSource_cases Hlen.
    + apply addNewDiaObject_inv in Hnew as (hp & sp & id & idf & _ & _ & _ & ->).
      simpl in Hlen. rewrite length_app in Hlen. simpl in Hlen. lia.
    + destruct H as (m & dists & matches & least & a & Hup & -> & _ & Hfind
                     & Hleast & Hlt & Ha & Hm).
      apply findMatches_Some in Hfind as (_ & _ & _ & Hd).
      destruct (Hd a m Hm) as (o & Ho & Hda).
      rewrite (np_min_argmin _ _ _ Hleast Ha) in Hda. injection Hda as ->.
      by exists m, o.
  - intros dists matches least Hfind Hleast Hlt.
    unfold associateSource. rewrite Hfind. simpl. rewrite Hleast. simpl.
    rewrite Hlt. by destruct (addNewDiaObject _ _ _ _ _).
Qed.


(** ** Exceptions *)

Lemma addNewDiaObject_Raise cfg (r : Row) v s (st : St) e :
  addNewDiaObject cfg r v s st = Raise e → ∃ x, e = Collaborator x.
Proof.
  unfold addNewDiaObject.
  intros [(x & _ & ->)%call_Raise|(hp & _ & [(x & _ & ->)%call_Raise
    |(sp & _ & [(x & _ & ->)%call_Raise|([id idf] & _ & [=])]%bind_Raise)]%bind_Raise)]%bind_Raise;
    by eexists.
Qed.

Lemma updateCatalogs_Raise cfg m (r : Row) v s (st : St) e :
  parallel_inv st → m < length (healPixIndices st) →
  updateCatalogs cfg m r v s st = Raise e → ∃ x, e = Collaborator x.
Proof.
  intros (H1 & H2 & _) Hm. unfold updateCatalogs.
  intros [(x & _ & ->)%call_Raise|(sp & _ & H)]%bind_Raise; [by eexists|].
  apply bind_Raise in H as [[H _]%getitem_Raise|(h & _ & H)]; [lia|].
  apply bind_Raise in H as [(x & _ & ->)%call_Raise|(q & _ & H)]; [by eexists|].
  apply bind_Raise in H as [[H _]%getitem_Raise|(o & _ & H)]; [lia|].
  apply bind_Raise in H as [(x & _ & ->)%call_Raise|(hp & _ & H)]; [by eexists|].
  apply bind_Raise in H as [[H _]%setitem_Raise|(hps & _ & [=])]. lia.
Qed.

Lemma findMatches_Raise cfg ra dec tol hp (cat : list Obj) e :
  length hp ≤ length cat →
  findMatches cfg ra dec tol hp cat = Raise e → ∃ x, e = Collaborator x.
Proof.
  intros Hlen. unfold findMatches.
  intros [(x & _ & ->)%call_Raise|(cells & _ & H)]%bind_Raise; [by eexists|].
  case_decide; [done|].
  apply bind_Raise in H as [(m & Hm%argwhere_from_bound & H)%mapM_Raise|(ds & _ & [=])].
  unfold np_isin in Hm. rewrite length_fmap in Hm.
  apply bind_Raise in H as [[H _]%getitem_Raise|(o & _ & [=])]. lia.
Qed.

Lemma associateSource_Raise cfg v (st : St) used (r : Row) e :
  parallel_inv st →
  associateSource cfg v (st, used) r = Raise e → ∃ x, e = Collaborator x.
Proof.
  intros Hinv. pose proof Hinv as (H1 & H2 & _). unfold associateSource.
  intros [H|([[dists matches]|] & Hfind & H)]%bind_Raise.
  - eapply findMatches_Raise; [|done]. lia.
  - apply findMatches_Some in Hfind as (Hne & Hlen & Hbound & _).
    apply bind_Raise in H as [->%np_min_Raise|(least & _ & H)].
    { by destruct matches. }
    destruct (Flt least (match_radius cfg)).
    + apply bind_Raise in H as [->%np_argmin_Raise|(a & Ha%np_argmin_bound & H)].
      { by destruct matches. }
      apply bind_Raise in H as [[H _]%getitem_Raise|(m & Hm%getitem_Ok & H)]; [lia|].
      case_decide.
      * apply bind_Raise in H as [H|(st1 & _ & [=])].
        eapply updateCatalogs_Raise; [done| |done].
        apply Hbound. by eapply list_elem_of_lookup_2.
      * apply bind_Raise in H as [H|(st1 & _ & [=])]. by eapply addNewDiaObject_Raise.
    + apply bind_Raise in H as [H|(st1 & _ & [=])]. by eapply addNewDiaObject_Raise.
  - apply bind_Raise in H as [H|(st1 & _ & [=])]. by eapply addNewDiaObject_Raise.
Qed.

Lemma foldM_create_Raise cfg v (st : St) (rs : list Row) e :
  foldM (λ st diaSrc, addNewDiaObject cfg diaSrc v (DiaSource.diaSourceId diaSrc) st)
        st rs = Raise e →
  ∃ x, e = Collaborator x.
Proof.
  revert st. induction rs as [|r rs IH]; intros st; simpl; [done|].
  intros [H|(st1 & _ & H)]%bind_Raise; [by eapply addNewDiaObject_Raise|by eapply IH].
Qed.

Lemma foldM_associate_Raise cfg v (st : St) used (rs : list Row) e :
  parallel_inv st →
  foldM (associateSource cfg v) (st, used) rs = Raise e → ∃ x, e = Collaborator x.
Proof.
  revert st used. induction rs as [|r rs IH]; intros st used Hinv; cbn [foldM]; [done|].
  intros [H|([st1 used1] & H1 & H)]%bind_Raise; [by eapply associateSource_Raise|].
  eapply IH; [|done].
  apply associateSource_cases in H1 as [[H1 _]|(m & ? & ? & ? & ? & H1 & _)].
  - by eapply parallel_inv_create.
  - by eapply parallel_inv_attach.
Qed.

Lemma associateVisit_Raise cfg (st : St) v e :
  parallel_inv st → associateVisit cfg st v = Raise e → ∃ x, e = Collaborator x.
Proof.
  intros Hinv. unfold associateVisit. case_decide.
  - apply foldM_create_Raise.
  - intros Hr%fmap_Raise. by eapply foldM_associate_Raise.
Qed.

Lemma visits_Raise cfg (st : St) (vs : list Z) e :
  parallel_inv st →
  foldM (associateVisit cfg) st vs = Raise e → ∃ x, e = Collaborator x.
Proof.
  revert st. induction vs as [|v vs IH]; intros st Hinv; cbn [foldM]; [done|].
  intros [H|(st1 & H1 & H)]%bind_Raise; [by eapply associateVisit_Raise|].
  eapply IH; [|done]. apply associateVisit_steps in H1 as (trace & Htr & _).
  by eapply steps_parallel_inv.
Qed.

(** C8, as the code has it. [run] checks neither [tolerance] nor [nside]:
    whatever the configuration, an exception that leaves [run] was raised by
    a collaborator it called (the id factory, the healpix helpers, the sphere
    geometry), never by the task itself. *)
Theorem raises_only_what_collaborators_raise cfg (tbl : list Row) tp sb e :
  run cfg tbl tp sb = Raise e → ∃ x, e = Collaborator x.
Proof.
  unfold run.
  intros [(x & _ & ->)%call_Raise|(idf & _ & [H|(st & _ & [=])]%bind_Raise)]%bind_Raise.
  - by eexists.
  - eapply visits_Raise; [|done]. apply parallel_inv_initial.
Qed.

(** ** Two runs *)

Lemma rel_result_mono {A} (R R' : A → A → Prop) (m1 m2 : result X A) :
  (∀ a b, R a b → R' a b) → rel_result R m1 m2 → rel_result R' m1 m2.
Proof. intros HR. destruct m1, m2; simpl; auto. Qed.

Lemma agree_weaken W W' (t1 t2 : list Row) :
  (∀ r, r ∈ t1 → W' (key r) → W (key r)) → agree W t1 t2 → agree W' t1 t2.
Proof.
  intros HW H. induction H as [|r1 r2 t1 t2 [Hobs Hid] _ IH].
  - constructor.
  - constructor.
    + split; [done|]. intros HW'. apply Hid, HW; [left|done].
    + apply IH. intros r Hr. apply HW. by right.
Qed.

Lemma sim_weaken W W' (st1 st2 : St) :
  (∀ r, r ∈ diaSources st1 → W' (key r) → W (key r)) →
  sim W st1 st2 → sim W' st1 st2.
Proof. intros HW (Ht & ?). split; [by eapply agree_weaken|done]. Qed.

Lemma agree_loc_set W (t1 t2 : list Row) v s id :
  agree W t1 t2 →
  agree (λ k, W k ∨ k = (v, s)) (loc_set t1 v s id) (loc_set t2 v s id).
Proof.
  unfold agree, loc_set. intros H. apply Forall2_fmap.
  eapply Forall2_impl; [done|]. intros r1 r2 [Hobs HW]. simpl.
  pose proof Hobs as Hobs'. unfold observed in Hobs'.
  injection Hobs' as Hv Hs Hra Hdec. rewrite <-Hv, <-Hs.
  case_decide as Hk.
  - split; [unfold observed; simpl; congruence|done].
  - split; [done|]. intros [?|Heq]; [by apply HW|].
    unfold key in Heq. injection Heq as ? ?. by destruct Hk.
Qed.

Lemma sim_create cfg W v s (st1 st2 : St) (r1 r2 : Row) :
  sim W st1 st2 → DiaSource.ra r1 = DiaSource.ra r2 →
  DiaSource.decl r1 = DiaSource.decl r2 →
  rel_result (sim (λ k, W k ∨ k = (v, s)))
    (addNewDiaObject cfg r1 v s st1) (addNewDiaObject cfg r2 v s st2).
Proof.
  intros (Ht & Hc & Hco & Hh & Hi) Hra Hdec. unfold addNewDiaObject.
  rewrite Hra, Hdec, Hi.
  destruct (call (toIndex _ _ _)) as [hp|e]; simpl; [|done].
  destruct (call (SpherePoint _ _)) as [sp|e]; simpl; [|done].
  destruct (call (addNew_id _)) as [[id idf]|e]; simpl; [|done].
  unfold sim; simpl. rewrite Hc, Hco, Hh. split; [by apply agree_loc_set|done].
Qed.

Lemma sim_attach cfg W m v s (st1 st2 : St) (r1 r2 : Row) :
  sim W st1 st2 → DiaSource.ra r1 = DiaSource.ra r2 →
  DiaSource.decl r1 = DiaSource.decl r2 →
  rel_result (sim (λ k, W k ∨ k = (v, s)))
    (updateCatalogs cfg m r1 v s st1) (updateCatalogs cfg m r2 v s st2).
Proof.
  intros (Ht & Hc & Hco & Hh & Hi) Hra Hdec. unfold updateCatalogs.
  rewrite Hra, Hdec, Hc, Hco, Hh, Hi.
  destruct (call (SpherePoint _ _)) as [sp|e]; simpl; [|done].
  destruct (getitem (diaObjectCoords st2) m) as [h|e]; simpl; [|done].
  destruct (call (averageSpherePoint _)) as [q|e]; simpl; [|done].
  destruct (getitem (diaObjectCat st2) m) as [o|e]; simpl; [|done].
  destruct (call (toIndex _ _ _)) as [hp|e]; simpl; [|done].
  destruct (setitem _ _ _) as [hps|e]; simpl; [|done].
  unfold sim; simpl. split; [by apply agree_loc_set|done].
Qed.

Lemma sim_associateSource cfg W v (st1 st2 : St) used (r1 r2 : Row) :
  sim W st1 st2 → observed r1 = observed r2 →
  rel_result (λ a b, sim (λ k, W k ∨ k = (v, DiaSource.diaSourceId r1)) a.1 b.1
                     ∧ a.2 = b.2)
    (associateSource cfg v (st1, used) r1) (associateSource cfg v (st2, used) r2).
Proof.
  intros Hsim Hobs. pose proof Hsim as (Ht & Hc & Hco & Hh & Hi).
  unfold observed in Hobs. injection Hobs as Hv Hs Hra Hdec.
  pose proof (sim_create cfg W v (DiaSource.diaSourceId r1) _ _ _ _ Hsim Hra Hdec) as Hnew.
  unfold associateSource. rewrite <-Hs, <-Hra, <-Hdec, <-Hc, <-Hh.
  destruct (findMatches _ _ _ _ _ _) as [[[dists matches]|]|e]; simpl; [| |done].
  - destruct (np_min dists) as [least|e]; simpl; [|done].
    destruct (Flt least (match_radius cfg)).
    + destruct (np_argmin dists) as [a|e]; simpl; [|done].
      destruct (getitem matches a) as [m|e]; simpl; [|done].
      case_decide.
      * pose proof (sim_attach cfg W m v (DiaSource.diaSourceId r1) _ _ _ _ Hsim Hra Hdec)
          as Hup.
        destruct (updateCatalogs _ _ r1 _ _ _), (updateCatalogs _ _ r2 _ _ _); by simpl in *.
      * destruct (addNewDiaObject _ r1 _ _ _), (addNewDiaObject _ r2 _ _ _); by simpl in *.
    + destruct (addNewDiaObject _ r1 _ _ _), (addNewDiaObject _ r2 _ _ _); by simpl in *.
  - destruct (addNewDiaObject _ r1 _ _ _), (addNewDiaObject _ r2 _ _ _); by simpl in *.
Qed.

Lemma sim_foldM_associate cfg W v (st1 st2 : St) used (rs1 rs2 : list Row) :
  sim W st1 st2 → Forall2 (λ r1 r2, observed r1 = observed r2) rs1 rs2 →
  rel_result (λ a b, sim (λ k, W k ∨ k ∈ (λ r, (v, DiaSource.diaSourceId r)) <$> rs1)
                       a.1 b.1 ∧ a.2 = b.2)
    (foldM (associateSource cfg v) (st1, used) rs1)
    (foldM (associateSource cfg v) (st2, used) rs2).
Proof.
  intros Hsim HF. revert W st1 st2 used Hsim.
  induction HF as [|r1 r2 rs1 rs2 Hobs _ IH]; intros W st1 st2 used Hsim; cbn [foldM].
  - simpl. split; [|done]. eapply sim_weaken; [|done].
    intros r _ [?|?%elem_of_nil]; done.
  - pose proof (sim_associateSource cfg W v _ _ used _ _ Hsim Hobs) as H.
    destruct (associateSource _ _ (st1, _) _) as [[a u]|e1],
             (associateSource _ _ (st2, _) _) as [[b u']|e2]; simpl in *; try done.
    destruct H as [H <-]. eapply rel_result_mono; [|by apply IH].
    intros [a' ua] [b' ub] [Hs' ?]; simpl in *. split; [|done].
    eapply sim_weaken; [|done].
    intros r _ [?|[->|?]%elem_of_cons]; [by left; left|by left; right|by right].
Qed.

Lemma sim_foldM_create cfg W v (st1 st2 : St) (rs1 rs2 : list Row) :
  sim W st1 st2 → Forall2 (λ r1 r2, observed r1 = observed r2) rs1 rs2 →
  rel_result (sim (λ k, W k ∨ k ∈ (λ r, (v, DiaSource.diaSourceId r)) <$> rs1))
    (foldM (λ st diaSrc, addNewDiaObject cfg diaSrc v (DiaSource.diaSourceId diaSrc) st)
           st1 rs1)
    (foldM (λ st diaSrc, addNewDiaObject cfg diaSrc v (DiaSource.diaSourceId diaSrc) st)
           st2 rs2).
Proof.
  intros Hsim HF. revert W st1 st2 Hsim.
  induction HF as [|r1 r2 rs1 rs2 Hobs _ IH]; intros W st1 st2 Hsim; cbn [foldM].
  - simpl. eapply sim_weaken; [|done]. intros r _ [?|?%elem_of_nil]; done.
  - pose proof Hobs as Hobs'. unfold observed in Hobs'. injection Hobs' as Hv Hs Hra Hdec.
    pose proof (sim_create cfg W v (DiaSource.diaSourceId r1) _ _ _ _ Hsim Hra Hdec) as H.
    rewrite <-Hs.
    destruct (addNewDiaObject _ r1 _ _ _) as [a|e1],
             (addNewDiaObject _ r2 _ _ _) as [b|e2]; simpl in *; try done.
    eapply rel_result_mono; [|by apply IH].
    intros a' b' Hs'. eapply sim_weaken; [|done].
    intros r _ [?|[->|?]%elem_of_cons]; [by left; left|by left; right|by right].
Qed.

Lemma agree_loc_visit W (t1 t2 : list Row) v :
  agree W t1 t2 →
  Forall2 (λ r1 r2, observed r1 = observed r2) (loc_visit t1 v) (loc_visit t2 v).
Proof.
  unfold loc_visit. induction 1 as [|r1 r2 t1 t2 [Hobs _] _ IH]; [constructor|].
  rewrite !filter_cons. pose proof Hobs as Hobs'. unfold observed in Hobs'.
  injection Hobs' as Hv _ _ _. rewrite <-Hv. case_decide; [by constructor|done].
Qed.

Lemma key_in_visit (t t' : list Row) v (r : Row) :
  key <$> t' = key <$> t → r ∈ t' → (key r).1 = v →
  key r ∈ (λ r, (v, DiaSource.diaSourceId r)) <$> loc_visit t v.
Proof.
  intros Hkeys Hr Hv.
  assert (key r ∈ key <$> t) as (r0 & Hk & Hr0)%list_elem_of_fmap.
  { rewrite <-Hkeys. apply list_elem_of_fmap. by exists r. }
  apply list_elem_of_fmap. exists r0. rewrite Hk in Hv |- *. split.
  - unfold key in *. simpl in Hv. by rewrite Hv.
  - apply list_elem_of_filter. done.
Qed.

Lemma steps_keys cfg (st : St) trace st' :
  steps cfg st trace st' → key <$> diaSources st' = key <$> diaSources st.
Proof. intros H%steps_frame. by rewrite !key_frame, H. Qed.

Lemma sim_associateVisit cfg W (st1 st2 : St) v :
  sim W st1 st2 →
  rel_result (sim (λ k, W k ∨ k.1 = v)) (associateVisit cfg st1 v) (associateVisit cfg st2 v).
Proof.
  intros Hsim. pose proof Hsim as (Ht & Hc & _).
  pose proof (agree_loc_visit _ _ _ v Ht) as HF.
  pose proof (associateVisit_steps cfg st1 v) as Hsteps.
  unfold associateVisit in *. rewrite <-Hc. case_decide as Hlen.
  - pose proof (sim_foldM_create cfg W v _ _ _ _ Hsim HF) as H.
    destruct (foldM _ st1 _) as [a|e1], (foldM _ st2 _) as [b|e2]; simpl in *; try done.
    eapply sim_weaken; [|done].
    intros r Hr [?|Hv]; [by left|right].
    destruct (Hsteps a eq_refl) as (trace & Htr & _).
    eapply key_in_visit; [|done..]. by eapply steps_keys.
  - pose proof (sim_foldM_associate cfg W v _ _ [] _ _ Hsim HF) as H.
    destruct (foldM _ (st1, _) _) as [[a ua]|e1], (foldM _ (st2, _) _) as [[b ub]|e2];
      simpl in *; try done.
    destruct H as [H _]. eapply sim_weaken; [|done].
    intros r Hr [?|Hv]; [by left|right].
    destruct (Hsteps a eq_refl) as (trace & Htr & _).
    eapply key_in_visit; [|done..]. by eapply steps_keys.
Qed.

Lemma sim_visits cfg W (st1 st2 : St) (vs : list Z) :
  sim W st1 st2 →
  rel_result (sim (λ k, W k ∨ k.1 ∈ vs))
    (foldM (associateVisit cfg) st1 vs) (foldM (associateVisit cfg) st2 vs).
Proof.
  revert W st1 st2. induction vs as [|v vs IH]; intros W st1 st2 Hsim; cbn [foldM].
  - simpl. eapply sim_weaken; [|done]. intros r _ [?|?%elem_of_nil]; done.
  - pose proof (sim_associateVisit cfg W _ _ v Hsim) as H.
    destruct (associateVisit _ st1 _) as [a|e1], (associateVisit _ st2 _) as [b|e2];
      simpl in *; try done.
    eapply rel_result_mono; [|by apply IH].
    intros a' b' Hs'. eapply sim_weaken; [|done].
    intros r _ [?|[->|?]%elem_of_cons]; [by left; left|by left; right|by right].
Qed.

Lemma observed_frame (l : list Row) :
  observed <$> l = (λ x, x.1) <$> (frame <$> l).
Proof. by rewrite <-list_fmap_compose. Qed.

Lemma key_observed (l : list Row) :
  key <$> l = (λ x, (x.1.1.1, x.1.1.2)) <$> (observed <$> l).
Proof. by rewrite <-list_fmap_compose. Qed.

Lemma agree_initial (t1 t2 : list Row) :
  observed <$> t1 = observed <$> t2 → agree (λ _, False) t1 t2.
Proof.
  revert t2. induction t1 as [|r1 t1 IH]; intros [|r2 t2] H; try done.
  - constructor.
  - rewrite !fmap_cons in H. apply (inj2 cons) in H as [Hr Ht].
    constructor; [done|]. by apply IH.
Qed.

(** C6. Determinism: two runs with the same configuration, [tractPatchId]
    and [skymapBits] on tables that hold the same rows in the same order, as
    far as [run] reads them (index entries and positions), end alike: with
    the same exception, or with the same object table (ids, [nDiaSources],
    positions) and the same id in every source row.  The [diaObjectId] column
    and the other columns of the input have no part in it, so the table a
    first run has written into gives the same result again. *)
Theorem determinism cfg (t1 t2 : list Row) tp sb :
  observed <$> t1 = observed <$> t2 →
  same_outputs (run cfg t1 tp sb) (run cfg t2 tp sb).
Proof.
  intros Hobs. unfold run.
  assert (index_levels0 t1 = index_levels0 t2) as <-.
  { unfold index_levels0. do 2 f_equal.
    assert (∀ l : list Row,
      DiaSource.ccdVisitId <$> l = (λ x, x.1.1.1) <$> (observed <$> l)) as Hc
      by (intros l; by rewrite <-list_fmap_compose).
    by rewrite !Hc, Hobs. }
  destruct (call (IdFactory_makeSource _ _)) as [idf|e]; simpl; [|done].
  assert (sim (λ _, False) (initial t1 idf) (initial t2 idf : St)) as Hsim.
  { split; [by apply agree_initial|done]. }
  pose proof (sim_visits cfg _ _ _ (index_levels0 t1) Hsim) as H.
  pose proof (visits_steps cfg (initial t1 idf) (index_levels0 t1)) as Hsteps.
  destruct (foldM _ (initial t1 idf) _) as [a|e1], (foldM _ (initial t2 idf) _) as [b|e2];
    simpl in *; try done.
  destruct H as (Ht & Hc & _). split; [done|].
  destruct (Hsteps a eq_refl) as (rs & Hrs%steps_keys & _). simpl in Hrs.
  assert (∀ r, r ∈ diaSources a → (key r).1 ∈ index_levels0 t1) as Hcover.
  { intros r Hr. unfold index_levels0.
    rewrite merge_sort_Permutation, elem_of_remove_dups.
    assert (key r ∈ key <$> t1) as (r0 & Hk & Hr0)%list_elem_of_fmap.
    { rewrite <-Hrs. apply list_elem_of_fmap. by exists r. }
    rewrite Hk. apply list_elem_of_fmap. by exists r0. }
  clear Hrs Hsteps. unfold agree in Ht.
  induction Ht as [|r1 r2 l1 l2 [_ Hid] _ IH]; [done|].
  rewrite !fmap_cons. f_equal.
  - apply Hid. right. apply Hcover. left.
  - apply IH. intros r Hr. apply Hcover. by right.
Qed.

(** ** Two sources of one ccdVisit on one object *)

Lemma associateVisit_first cfg (st : St) v :
  length (diaObjectCat st) = 0 →
  associateVisit cfg st v
  = foldM (λ st diaSrc,
             addNewDiaObject cfg diaSrc v (DiaSource.diaSourceId diaSrc) st)
          st (loc_visit (diaSources st) v).
Proof. intros H. unfold associateVisit. by case_decide. Qed.

Lemma associateVisit_later cfg (st : St) v :
  length (diaObjectCat st) ≠ 0 →
  associateVisit cfg st v
  = fst <$> foldM (associateSource cfg v) (st, []) (loc_visit (diaSources st) v).
Proof. intros H. unfold associateVisit. by case_decide. Qed.

Lemma addNewDiaObject_eq cfg (r : Row) v s (st : St) hp sp id idf :
  toIndex (nside cfg) (DiaSource.ra r) (DiaSource.decl r) = Returns hp →
  SpherePoint (DiaSource.ra r) (DiaSource.decl r) = Returns sp →
  addNew_id (idCat st) = Returns (id, idf) →
  addNewDiaObject cfg r v s st
  = Ok {| diaSources := loc_set (diaSources st) v s id;
          diaObjectCat := diaObjectCat st
            ++ [createDiaObject id (DiaSource.ra r) (DiaSource.decl r)];
          diaObjectCoords := diaObjectCoords st ++ [[sp]];
          healPixIndices := healPixIndices st ++ [hp];
          idCat := idf |}.
Proof. intros Hhp Hsp Hid. unfold addNewDiaObject. by rewrite Hhp, Hsp, Hid. Qed.

Lemma updateCatalogs_eq cfg m (r : Row) v s (st : St) sp h q o hp :
  SpherePoint (DiaSource.ra r) (DiaSource.decl r) = Returns sp →
  diaObjectCoords st !! m = Some h →
  averageSpherePoint (h ++ [sp]) = Returns q →
  diaObjectCat st !! m = Some o →
  toIndex (nside cfg) (getRa_asDegrees q) (getDec_asDegrees q) = Returns hp →
  m < length (healPixIndices st) →
  updateCatalogs cfg m r v s st
  = Ok {| diaSources := loc_set (diaSources st) v s (DiaObject.diaObjectId o);
          diaObjectCat :=
            <[m := moved o (getRa_asDegrees q) (getDec_asDegrees q)]> (diaObjectCat st);
          diaObjectCoords := <[m := h ++ [sp]]> (diaObjectCoords st);
          healPixIndices := <[m := hp]> (healPixIndices st);
          idCat := idCat st |}.
Proof.
  intros Hsp Hh Hq Ho Hhp Hm. unfold updateCatalogs, getitem, setitem.
  rewrite Hsp. simpl. rewrite Hh. simpl. rewrite Hq. simpl. rewrite Ho. simpl.
  rewrite Hhp. simpl. by case_decide.
Qed.

(** C2, where the code departs from it. A table of three sources: one in
    ccdVisit 1, two at one position in ccdVisit 2, out of reach of the first.
    The first source of ccdVisit 2 founds an object, which is not entered in
    [usedMatchIndicies]; the second one finds it, within the radius, and is
    attached to it.  [run] returns two objects, the second with
    [nDiaSources = 2], and both sources of ccdVisit 2 hold its id. *)
Theorem same_visit_sources_share_object cfg tp sb
    (ra1 dec1 ra2 dec2 : F) (c1 c2 c3 : Payload)
    (f0 f1 f2 : IdF) (i1 i2 h1 h2 h3 : Z) (p1 p2 q : SP) (cells : list Z) :
  IdFactory_makeSource tp (64 - sb) = Returns f0 →
  addNew_id f0 = Returns (i1, f1) →
  addNew_id f1 = Returns (i2, f2) →
  toIndex (nside cfg) ra1 dec1 = Returns h1 →
  toIndex (nside cfg) ra2 dec2 = Returns h2 →
  SpherePoint ra1 dec1 = Returns p1 →
  SpherePoint ra2 dec2 = Returns p2 →
  query_disc (nside cfg) ra2 dec2
    (deg2rad (Fdiv (Fmul (Fconst 2) (tolerance cfg)) (Fconst 3600))) = Returns cells →
  h1 ∉ cells →
  h2 ∈ cells →
  Flt (unit_vector_distance ra2 dec2 ra2 dec2) (match_radius cfg) = true →
  averageSpherePoint [p2; p2] = Returns q →
  toIndex (nside cfg) (getRa_asDegrees q) (getDec_asDegrees q) = Returns h3 →
  run cfg [DiaSource.mk 1 1 ra1 dec1 None c1;
           DiaSource.mk 2 2 ra2 dec2 None c2;
           DiaSource.mk 2 3 ra2 dec2 None c3] tp sb
  = Ok ([DiaSource.mk 1 1 ra1 dec1 (Some i1) c1;
         DiaSource.mk 2 2 ra2 dec2 (Some i2) c2;
         DiaSource.mk 2 3 ra2 dec2 (Some i2) c3],
        [createDiaObject i1 ra1 dec1;
         moved (createDiaObject i2 ra2 dec2) (getRa_asDegrees q) (getDec_asDegrees q)]).
Proof.
  intros Hf0 Hi1 Hi2 Hh1 Hh2 Hp1 Hp2 Hcells Hout Hin Hlt Hq Hh3.
  set (r1 := DiaSource.mk 1 1 ra1 dec1 None c1).
  set (r2 := DiaSource.mk 2 2 ra2 dec2 None c2).
  set (r3 := DiaSource.mk 2 3 ra2 dec2 None c3).
  set (st1 := {| diaSources := [set_diaObjectId i1 r1; r2; r3];
                 diaObjectCat := [createDiaObject i1 ra1 dec1];
                 diaObjectCoords := [[p1]]; healPixIndices := [h1]; idCat := f1 |} : St).
  set (st2 := {| diaSources := [set_diaObjectId i1 r1; set_diaObjectId i2 r2; r3];
                 diaObjectCat := [createDiaObject i1 ra1 dec1; createDiaObject i2 ra2 dec2];
                 diaObjectCoords := [[p1]; [p2]]; healPixIndices := [h1; h2];
                 idCat := f2 |} : St).
  assert (associateVisit cfg (initial [r1; r2; r3] f0) 1 = Ok st1) as Hv1.
  { rewrite associateVisit_first by done.
    change (loc_visit (diaSources (initial [r1; r2; r3] f0)) 1) with [r1].
    cbn [foldM]. by erewrite addNewDiaObject_eq by (simpl; eassumption). }
  assert (associateSource cfg 2 (st1, []) r2 = Ok (st2, [])) as Hs2.
  { unfold associateSource, findMatches. simpl. rewrite Hcells. simpl.
    rewrite (bool_decide_eq_false_2 _ Hout). simpl.
    by erewrite addNewDiaObject_eq by (simpl; eassumption). }
  set (o2 := moved (createDiaObject i2 ra2 dec2) (getRa_asDegrees q) (getDec_asDegrees q)).
  set (st3 := {| diaSources :=
                   [set_diaObjectId i1 r1; set_diaObjectId i2 r2; set_diaObjectId i2 r3];
                 diaObjectCat := [createDiaObject i1 ra1 dec1; o2];
                 diaObjectCoords := [[p1]; [p2; p2]]; healPixIndices := [h1; h3];
                 idCat := f2 |} : St).
  assert (associateSource cfg 2 (st2, []) r3 = Ok (st3, [1])) as Hs3.
  { unfold associateSource, findMatches. simpl. rewrite Hcells. simpl.
    rewrite (bool_decide_eq_false_2 _ Hout), (bool_decide_eq_true_2 _ Hin). simpl.
    rewrite Hlt. simpl.
    by erewrite updateCatalogs_eq by (simpl; first [eassumption|reflexivity|lia]). }
  assert (associateVisit cfg st1 2 = Ok st3) as Hv2.
  { rewrite associateVisit_later by done.
    change (loc_visit (diaSources st1) 2) with [r2; r3].
    cbn [foldM]. rewrite Hs2. cbn [mbind result_bind]. by rewrite Hs3. }
  unfold run. rewrite Hf0. simpl call. cbn [mbind result_bind].
  change (index_levels0 [r1; r2; r3]) with [1; 2]%Z.
  cbn [foldM]. rewrite Hv1. cbn [mbind result_bind]. by rewrite Hv2.
Qed.

(** ** A source attached in a second ccdVisit *)

(** [run] on two sources of two ccdVisits, the second within the radius of the
    object the first one founds. *)
Lemma attach_in_second_visit cfg tp sb
    (ra1 dec1 ra2 dec2 : F) (c1 c2 : Payload)
    (f0 f1 : IdF) (i1 h1 h3 : Z) (p1 p2 q : SP) (cells : list Z) :
  IdFactory_makeSource tp (64 - sb) = Returns f0 →
  addNew_id f0 = Returns (i1, f1) →
  toIndex (nside cfg) ra1 dec1 = Returns h1 →
  SpherePoint ra1 dec1 = Returns p1 →
  SpherePoint ra2 dec2 = Returns p2 →
  query_disc (nside cfg) ra2 dec2
    (deg2rad (Fdiv (Fmul (Fconst 2) (tolerance cfg)) (Fconst 3600))) = Returns cells →
  h1 ∈ cells →
  Flt (unit_vector_distance ra2 dec2 ra1 dec1) (match_radius cfg) = true →
  averageSpherePoint [p1; p2] = Returns q →
  toIndex (nside cfg) (getRa_asDegrees q) (getDec_asDegrees q) = Returns h3 →
  run cfg [DiaSource.mk 1 1 ra1 dec1 None c1; DiaSource.mk 2 2 ra2 dec2 None c2] tp sb
  = Ok ([DiaSource.mk 1 1 ra1 dec1 (Some i1) c1; DiaSource.mk 2 2 ra2 dec2 (Some i1) c2],
        [moved (createDiaObject i1 ra1 dec1) (getRa_asDegrees q) (getDec_asDegrees q)]).
Proof.
  intros Hf0 Hi1 Hh1 Hp1 Hp2 Hcells Hin Hlt Hq Hh3.
  set (r1 := DiaSource.mk 1 1 ra1 dec1 None c1).
  set (r2 := DiaSource.mk 2 2 ra2 dec2 None c2).
  set (st1 := {| diaSources := [set_diaObjectId i1 r1; r2];
                 diaObjectCat := [createDiaObject i1 ra1 dec1];
                 diaObjectCoords := [[p1]]; healPixIndices := [h1]; idCat := f1 |} : St).
  set (o1 := moved (createDiaObject i1 ra1 dec1) (getRa_asDegrees q) (getDec_asDegrees q)).
  set (st2 := {| diaSources := [set_diaObjectId i1 r1; set_diaObjectId i1 r2];
                 diaObjectCat := [o1];
                 diaObjectCoords := [[p1; p2]]; healPixIndices := [h3]; idCat := f1 |} : St).
  assert (associateVisit cfg (initial [r1; r2] f0) 1 = Ok st1) as Hv1.
  { rewrite associateVisit_first by done.
    change (loc_visit (diaSources (initial [r1; r2] f0)) 1) with [r1].
    cbn [foldM]. by erewrite addNewDiaObject_eq by (simpl; eassumption). }
  assert (associateSource cfg 2 (st1, []) r2 = Ok (st2, [0])) as Hs2.
  { unfold associateSource, findMatches. simpl. rewrite Hcells. simpl.
    rewrite (bool_decide_eq_true_2 _ Hin). simpl. rewrite Hlt. simpl.
    by erewrite updateCatalogs_eq by (simpl; first [eassumption|reflexivity|lia]). }
  assert (associateVisit cfg st1 2 = Ok st2) as Hv2.
  { rewrite associateVisit_later by done.
    change (loc_visit (diaSources st1) 2) with [r2].
    cbn [foldM]. by rewrite Hs2. }
  unfold run. rewrite Hf0. simpl call. cbn [mbind result_bind].
  change (index_levels0 [r1; r2]) with [1; 2]%Z.
  cbn [foldM]. rewrite Hv1. cbn [mbind result_bind]. by rewrite Hv2.
Qed.

End AssociationProofs.

(** * Further properties of the task *)

Section AssociationExtras.
Context {F SP IdF X Payload : Type}.
Context `{!Numeric F} `{!Collaborators F SP IdF X}.

Abbreviation Row := (DiaSource.t F Payload).
Abbreviation Obj := (DiaObject.t F).
Abbreviation St := (State F SP IdF Payload).
Abbreviation Config := (SimpleAssociationConfig F).

(** ** The candidates of [findMatches] *)

Lemma elem_of_argwhere_from i bs m :
  m ∈ argwhere_from i bs ↔ ∃ k, m = i + k ∧ bs !! k = Some true.
Proof.
  revert i. induction bs as [|b bs IH]; intros i; simpl.
  - split; [by intros ?%elem_of_nil|by intros (k & _ & ?)].
  - assert (m ∈ argwhere_from (S i) bs ↔ ∃ k, m = i + S k ∧ bs !! k = Some true) as IH'.
    { rewrite IH. split; intros (k & -> & Hk); exists k; split; [lia|done|lia|done]. }
    destruct b.
    + rewrite elem_of_cons, IH'. split.
      * intros [->|(k & -> & Hk)]; [exists 0; split; [lia|done]|by exists (S k)].
      * intros ([|k] & -> & Hk); [left; lia|right; by exists k].
    + rewrite IH'. split.
      * intros (k & -> & Hk). by exists (S k).
      * intros ([|k] & -> & Hk); [done|by exists k].
Qed.

Lemma argwhere_from_sorted i bs : StronglySorted lt (argwhere_from i bs).
Proof.
  revert i. induction bs as [|b bs IH]; intros i; simpl; [constructor|].
  destruct b; [|apply IH]. constructor; [apply IH|].
  apply Forall_forall. intros m Hm%argwhere_from_bound. lia.
Qed.

Lemma elem_of_argwhere_isin (hp cells : list Z) m :
  m ∈ np_argwhere (np_isin hp cells) ↔ ∃ c, hp !! m = Some c ∧ c ∈ cells.
Proof.
  unfold np_argwhere, np_isin. rewrite elem_of_argwhere_from. split.
  - intros (k & -> & Hk). simpl. rewrite list_lookup_fmap in Hk.
    destruct (hp !! k) as [c|]; [|done]. simpl in Hk. injection Hk as Hk.
    exists c. split; [done|]. by apply bool_decide_eq_true in Hk.
  - intros (c & Hc & Hin). exists m. split; [done|].
    rewrite list_lookup_fmap, Hc. simpl. f_equal. by apply bool_decide_eq_true.
Qed.

(** X1. What [findMatches] returns, given the cells of [query_disc]: no
    match ([dists=None]) exactly when no object's healpix index is among the
    cells; otherwise [matches] lists, in ascending order and without
    repetition, exactly the positions of the objects whose healpix index is
    among the cells, and [dists] holds, position by position, the distance
    from the source to each of them. *)
Theorem findMatches_candidates cfg ra dec tol hp (cat : list Obj) cells :
  query_disc (nside cfg) ra dec (deg2rad (Fdiv tol (Fconst 3600))) = Returns cells →
  (findMatches cfg ra dec tol hp cat = Ok None ↔ ∀ c, c ∈ hp → c ∉ cells)
  ∧ ∀ dists matches,
      findMatches cfg ra dec tol hp cat = Ok (Some (dists, matches)) →
      StronglySorted lt matches
      ∧ (∀ m, m ∈ matches ↔ ∃ c, hp !! m = Some c ∧ c ∈ cells)
      ∧ length dists = length matches
      ∧ ∀ a m, matches !! a = Some m →
          ∃ o, cat !! m = Some o
             ∧ dists !! a
               = Some (unit_vector_distance ra dec (DiaObject.ra o) (DiaObject.decl o)).
Proof.
  intros Hcells. split.
  - unfold findMatches. rewrite Hcells. simpl. split.
    + case_decide as Hlen.
      * intros _ c (m & Hm)%list_elem_of_lookup Hin.
        assert (m ∈ np_argwhere (np_isin hp cells)) as Hel
          by (apply elem_of_argwhere_isin; by exists c).
        destruct (np_argwhere (np_isin hp cells)); [by apply elem_of_nil in Hel|].
        simpl in Hlen. lia.
      * by destruct (mapM _ _).
    + intros Hnone. case_decide as Hlen; [done|]. exfalso.
      destruct (np_argwhere (np_isin hp cells)) as [|m l] eqn:Heq; [simpl in Hlen; lia|].
      assert (m ∈ np_argwhere (np_isin hp cells)) as (c & Hc & Hin)%elem_of_argwhere_isin
        by (rewrite Heq; left).
      eapply Hnone; [|done]. by eapply list_elem_of_lookup_2.
  - intros dists matches Hfind.
    pose proof (findMatches_Some _ _ _ _ _ _ _ _ Hfind) as (_ & Hlen & _ & Hd).
    unfold findMatches in Hfind. rewrite Hcells in Hfind. simpl in Hfind.
    case_decide; [done|].
    apply bind_Ok in Hfind as (ds & _ & [= _ <-]).
    repeat split; try done.
    + apply argwhere_from_sorted.
    + by intros ?%elem_of_argwhere_isin.
    + by intros ?%elem_of_argwhere_isin.
Qed.

(** ** What [updateCatalogs] touches *)

(** X2. [updateCatalogs] changes the object at [matchIndex] and nothing
    else: the catalog keeps its length, no id is taken from the factory, the
    entries of the three lists at every other index stay as they are, and
    the object at [matchIndex] keeps its id and auxiliary columns, counts one
    source more and has the point of the source appended to its history.
    With [matchIndex] beyond the coordinate histories it raises
    [IndexError], once the point of the source is made. *)
Theorem updateCatalogs_touches_one_object cfg m (r : Row) v s (st : St) :
  (∀ st', updateCatalogs cfg m r v s st = Ok st' →
     length (diaObjectCat st') = length (diaObjectCat st)
     ∧ idCat st' = idCat st
     ∧ (∀ j, j ≠ m →
          diaObjectCat st' !! j = diaObjectCat st !! j
          ∧ diaObjectCoords st' !! j = diaObjectCoords st !! j
          ∧ healPixIndices st' !! j = healPixIndices st !! j)
     ∧ ∃ o o' h sp,
         diaObjectCat st !! m = Some o ∧ diaObjectCat st' !! m = Some o'
         ∧ DiaObject.diaObjectId o' = DiaObject.diaObjectId o
         ∧ auxiliary o' = auxiliary o
         ∧ DiaObject.nDiaSources o' = (DiaObject.nDiaSources o + 1)%Z
         ∧ point_of sp r
         ∧ diaObjectCoords st !! m = Some h
         ∧ diaObjectCoords st' !! m = Some (h ++ [sp]))
  ∧ (∀ sp, point_of sp r → length (diaObjectCoords st) ≤ m →
       updateCatalogs cfg m r v s st = Raise IndexError).
Proof.
  split.
  - intros st' (sp & h & q & o & hp & Hsp & Hh & Hq & Ho & Hhp & Hm & ->)%updateCatalogs_inv.
    simpl. rewrite length_insert. repeat split.
    + by rewrite list_lookup_insert_ne.
    + by rewrite list_lookup_insert_ne.
    + by rewrite list_lookup_insert_ne.
    + exists o, (moved o (getRa_asDegrees q) (getDec_asDegrees q)), h, sp.
      repeat split; try done.
      * apply list_lookup_insert_eq. by eapply lookup_lt_Some.
      * apply list_lookup_insert_eq. by eapply lookup_lt_Some.
  - intros sp Hsp Hlen. unfold updateCatalogs, point_of in *. rewrite Hsp.
    assert (getitem (X:=X) (diaObjectCoords st) m = Raise IndexError) as ->
      by (by apply getitem_Raise).
    done.
Qed.

(** ** The life of an object *)

Lemma step_persist cfg (st : St) r i st' :
  step cfg st r i st' →
  length (diaObjectCat st) ≤ length (diaObjectCat st')
  ∧ ∀ j o, diaObjectCat st !! j = Some o →
      ∃ o', diaObjectCat st' !! j = Some o'
          ∧ DiaObject.diaObjectId o' = DiaObject.diaObjectId o
          ∧ auxiliary o' = auxiliary o
          ∧ (DiaObject.nDiaSources o ≤ DiaObject.nDiaSources o')%Z.
Proof.
  intros [st0 r0 st1 H|st0 r0 m st1 H].
  - apply addNewDiaObject_inv in H as (hp & sp & id & idf & _ & _ & _ & ->). simpl.
    split; [rewrite length_app; lia|]. intros j o Ho. exists o.
    split; [|done]. apply lookup_app_l_Some. done.
  - apply updateCatalogs_inv in H as (sp & h & q & o & hp & _ & _ & _ & Ho & _ & _ & ->).
    simpl. split; [by rewrite length_insert|]. intros j oj Hj.
    destruct (decide (j = m)) as [->|Hne].
    + rewrite Ho in Hj. injection Hj as <-.
      exists (moved o (getRa_asDegrees q) (getDec_asDegrees q)).
      split; [apply list_lookup_insert_eq; by eapply lookup_lt_Some|].
      repeat split; simpl; lia.
    + exists oj. by rewrite list_lookup_insert_ne.
Qed.

(** X3. Objects are never deleted, merged or renumbered: through any
    sequence of creations and attachments the catalog does not shrink, and
    the object at an index stays at that index with its id and its auxiliary
    columns, and [nDiaSources] never decreases. *)
Theorem objects_persist cfg (st : St) trace st' :
  steps cfg st trace st' →
  length (diaObjectCat st) ≤ length (diaObjectCat st')
  ∧ ∀ j o, diaObjectCat st !! j = Some o →
      ∃ o', diaObjectCat st' !! j = Some o'
          ∧ DiaObject.diaObjectId o' = DiaObject.diaObjectId o
          ∧ auxiliary o' = auxiliary o
          ∧ (DiaObject.nDiaSources o ≤ DiaObject.nDiaSources o')%Z.
Proof.
  induction 1 as [st|st r i st1 trace st2 Hstep _ [IHl IH]].
  - split; [done|]. intros j o Ho. by exists o.
  - apply step_persist in Hstep as [Hl Hs]. split; [lia|].
    intros j o Ho. destruct (Hs j o Ho) as (o1 & Ho1 & Hid1 & Haux1 & Hn1).
    destruct (IH j o1 Ho1) as (o2 & Ho2 & Hid2 & Haux2 & Hn2).
    exists o2. repeat split; [done|congruence|congruence|lia].
Qed.

(** ** Ids *)

Lemma steps_issued cfg (st : St) trace st' :
  steps cfg st trace st' →
  ∃ new, issued (length new) (idCat st) = Some (new, idCat st')
       ∧ DiaObject.diaObjectId <$> diaObjectCat st'
         = (DiaObject.diaObjectId <$> diaObjectCat st) ++ new.
Proof.
  induction 1 as [st|st r i st1 trace st2 Hstep _ (new & Hnew & Hids)].
  - exists []. split; [done|]. by rewrite app_nil_r.
  - destruct Hstep as [st r st1 H|st r m st1 H].
    + apply addNewDiaObject_inv in H as (hp & sp & id & idf & _ & _ & Hid & ->).
      simpl in *. exists (id :: new). split.
      * simpl. rewrite Hid, Hnew. done.
      * rewrite Hids, fmap_app. simpl. by rewrite <-app_assoc.
    + apply updateCatalogs_inv in H as (sp & h & q & o & hp & _ & _ & _ & Ho & _ & _ & ->).
      simpl in *. exists new. split; [done|]. rewrite Hids. f_equal.
      rewrite list_fmap_insert. simpl. apply list_insert_id.
      by rewrite list_lookup_fmap, Ho.
Qed.

(** X4. The ids of the returned objects are the ids a factory made by
    [IdFactory.makeSource(tractPatchId, 64 - skymapBits)] issues first, one
    [addNew] per object, in the order of the object table: the n-th object
    holds the n-th id, and no id is issued and left unused. *)
Theorem ids_are_issued_in_order cfg (tbl : list Row) tp sb tbl' objs :
  run cfg tbl tp sb = Ok (tbl', objs) →
  ∃ idf idf',
    IdFactory_makeSource tp (64 - sb) = Returns idf
    ∧ issued (length objs) idf = Some (DiaObject.diaObjectId <$> objs, idf').
Proof.
  intros (idf & trace & st & Hidf & Hsteps & _ & _ & ->)%run_steps.
  apply steps_issued in Hsteps as (new & Hnew & Hids). simpl in *. subst new.
  exists idf, (idCat st). split; [done|]. by rewrite length_fmap in Hnew.
Qed.

(** ** The returned objects *)

Lemma total_ge_length (objs : list Obj) :
  Forall (λ o, (1 ≤ DiaObject.nDiaSources o)%Z) objs →
  (Z.of_nat (length objs) ≤ total_nDiaSources objs)%Z.
Proof.
  unfold total_nDiaSources. induction 1 as [|o objs Ho _ IH]; simpl; [done|].
  unfold fmap in *. lia.
Qed.

Lemma step_well_formed cfg (st : St) r i st' :
  step cfg st r i st' →
  Forall (λ o, (1 ≤ DiaObject.nDiaSources o)%Z ∧ auxiliary o = replicate 11 0%Z)
         (diaObjectCat st) →
  Forall (λ o, (1 ≤ DiaObject.nDiaSources o)%Z ∧ auxiliary o = replicate 11 0%Z)
         (diaObjectCat st').
Proof.
  intros [st0 r0 st1 H|st0 r0 m st1 H] Hall.
  - apply addNewDiaObject_inv in H as (hp & sp & id & idf & _ & _ & _ & ->). simpl.
    apply Forall_app. split; [done|]. by repeat constructor.
  - apply updateCatalogs_inv in H as (sp & h & q & o & hp & _ & _ & _ & Ho & _ & _ & ->).
    simpl. apply Forall_insert; [done|].
    destruct (proj1 (Forall_lookup _ _) Hall m o Ho) as [Hn Haux].
    split; [simpl; lia|done].
Qed.

Lemma steps_well_formed cfg (st : St) trace st' :
  steps cfg st trace st' →
  Forall (λ o, (1 ≤ DiaObject.nDiaSources o)%Z ∧ auxiliary o = replicate 11 0%Z)
         (diaObjectCat st) →
  Forall (λ o, (1 ≤ DiaObject.nDiaSources o)%Z ∧ auxiliary o = replicate 11 0%Z)
         (diaObjectCat st').
Proof.
  induction 1 as [st|st r i st1 trace st2 Hstep _ IH]; [done|].
  intros Hall. apply IH. by eapply step_well_formed.
Qed.

(** X5. When [run] returns, every object it returns counts at least one
    source and has its eleven auxiliary columns at zero; there are no more
    objects than sources, and at least one object when the table has a
    row. *)
Theorem returned_objects_are_well_formed cfg (tbl : list Row) tp sb tbl' objs :
  run cfg tbl tp sb = Ok (tbl', objs) →
  (∀ o, o ∈ objs →
     (1 ≤ DiaObject.nDiaSources o)%Z ∧ auxiliary o = replicate 11 0%Z)
  ∧ length objs ≤ length tbl
  ∧ (tbl ≠ [] → objs ≠ []).
Proof.
  intros (idf & trace & st & _ & Hsteps & Hfr & _ & ->)%run_steps.
  assert (Forall (λ o, (1 ≤ DiaObject.nDiaSources o)%Z ∧ auxiliary o = replicate 11 0%Z)
                 (diaObjectCat st)) as Hall.
  { eapply steps_well_formed; [done|]. constructor. }
  pose proof (steps_total _ _ _ _ Hsteps) as Htot. simpl in Htot.
  apply (f_equal length) in Hfr. rewrite !length_fmap, schedule_Permutation in Hfr.
  assert (Z.of_nat (length (diaObjectCat st)) ≤ total_nDiaSources (diaObjectCat st))%Z
    as Hle.
  { apply total_ge_length. eapply Forall_impl; [done|]. by intros o [? _]. }
  change (total_nDiaSources (@nil Obj)) with 0%Z in Htot.
  split; [by apply Forall_forall|]. split; [lia|].
  intros Hne Hnil. rewrite Hnil in Htot.
  change (total_nDiaSources (@nil Obj)) with 0%Z in Htot.
  destruct tbl; [done|]. simpl in Hfr. lia.
Qed.

(** ** The first ccdVisit *)

Lemma foldM_create_catalog cfg v (st : St) (rs : list Row) st' :
  foldM (λ st diaSrc, addNewDiaObject cfg diaSrc v (DiaSource.diaSourceId diaSrc) st)
        st rs = Ok st' →
  (λ o, (DiaObject.ra o, DiaObject.decl o, DiaObject.nDiaSources o)) <$> diaObjectCat st'
  = ((λ o, (DiaObject.ra o, DiaObject.decl o, DiaObject.nDiaSources o)) <$> diaObjectCat st)
    ++ ((λ r, (DiaSource.ra r, DiaSource.decl r, 1%Z)) <$> rs).
Proof.
  revert st. induction rs as [|r rs IH]; intros st; cbn [foldM].
  - intros [= <-]. by rewrite app_nil_r.
  - intros (st1 & H1 & H2%IH)%bind_Ok. rewrite H2.
    apply addNewDiaObject_inv in H1 as (hp & sp & id & idf & _ & _ & _ & ->). simpl.
    rewrite fmap_app. simpl. by rewrite <-app_assoc.
Qed.

(** X6. While the catalog is empty, that is for the first ccdVisit, no
    matching takes place: [associateVisit] gives every source of the
    ccdVisit an object of its own, at the position of the source and with
    [nDiaSources = 1], in the order of the rows, however close to each other
    the sources are. *)
Theorem first_visit_founds_one_object_per_source cfg (st : St) v st' :
  length (diaObjectCat st) = 0 →
  associateVisit cfg st v = Ok st' →
  (λ o, (DiaObject.ra o, DiaObject.decl o, DiaObject.nDiaSources o)) <$> diaObjectCat st'
  = (λ r, (DiaSource.ra r, DiaSource.decl r, 1%Z)) <$> loc_visit (diaSources st) v.
Proof.
  intros Hlen. rewrite associateVisit_first by done.
  intros H%foldM_create_catalog. rewrite H.
  by destruct (diaObjectCat st).
Qed.

(** ** The empty table, and a factory that cannot be made *)

(** X7. [run] makes the id factory before it takes the first source: when
    [IdFactory.makeSource] raises, [run] raises the same exception whatever
    the table holds, also for an empty one; when the factory is made, an
    empty table gives two empty tables. *)
Theorem run_starts_with_the_factory cfg tp sb :
  (∀ x (tbl : list Row),
     IdFactory_makeSource tp (64 - sb) = Raises x →
     run cfg tbl tp sb = Raise (Collaborator x))
  ∧ (∀ idf,
       IdFactory_makeSource tp (64 - sb) = Returns idf →
       run cfg ([] : list Row) tp sb = Ok ([], [])).
Proof.
  split.
  - intros x tbl Hx. unfold run. by rewrite Hx.
  - intros idf Hidf. unfold run. by rewrite Hidf.
Qed.

(** ** One ccdVisit after the first *)

Lemma foldM_associate_counts cfg v (st : St) used (rs : list Row) st' used' :
  NoDup used →
  foldM (associateSource cfg v) (st, used) rs = Ok (st', used') →
  ∃ added, used' = used ++ added ∧ NoDup used'
    ∧ (∀ i o, diaObjectCat st !! i = Some o →
         ∃ o', diaObjectCat st' !! i = Some o'
             ∧ DiaObject.nDiaSources o'
               = (DiaObject.nDiaSources o + if decide (i ∈ added) then 1 else 0)%Z)
    ∧ (∀ i o', length (diaObjectCat st) ≤ i → diaObjectCat st' !! i = Some o' →
         DiaObject.nDiaSources o' = (1 + if decide (i ∈ added) then 1 else 0)%Z).
Proof.
  revert st used. induction rs as [|r rs IH]; intros st used Hnd; cbn [foldM].
  - intros [= <- <-]. exists []. rewrite app_nil_r. split; [done|]. split; [done|]. split.
    + intros i o Ho. exists o. split; [done|]. rewrite decide_False; [lia|]. apply not_elem_of_nil.
    + intros i o' Hi Ho'. apply lookup_lt_Some in Ho'. lia.
  - intros ([st1 used1] & H1 & H2)%bind_Ok.
    apply associateSource_cases in H1
      as [[H1 ->]|(m & ? & ? & ? & ? & H1 & -> & Hm & _)].
    + destruct (IH _ _ Hnd H2) as (added & -> & Hnd' & Hold & Hnew).
      apply addNewDiaObject_inv in H1 as (hp & sp & id & idf & _ & _ & _ & ->).
      simpl in *. exists added. split; [done|]. split; [done|]. split.
      * intros i o Ho. apply Hold. by apply lookup_app_l_Some.
      * intros i o' Hi Ho'. destruct (decide (i = length (diaObjectCat st))) as [->|Hne].
        -- destruct (Hold (length (diaObjectCat st))
                       (createDiaObject id (DiaSource.ra r) (DiaSource.decl r)))
             as (o1 & Ho1 & Hn1); [by apply list_lookup_middle|].
           rewrite Ho' in Ho1. injection Ho1 as <-. by rewrite Hn1.
        -- apply Hnew; [|done]. rewrite length_app. simpl. lia.
    + assert (NoDup (used ++ [m])) as Hnd1.
      { apply NoDup_app. split; [done|]. split; [|apply NoDup_singleton].
        intros y Hy ->%list_elem_of_singleton. done. }
      destruct (IH _ _ Hnd1 H2) as (added & -> & Hnd' & Hold & Hnew).
      assert (m ∉ added) as Hma.
      { rewrite <-app_assoc in Hnd'. apply NoDup_app in Hnd' as (_ & _ & Hnd').
        by apply NoDup_cons in Hnd' as [? _]. }
      apply updateCatalogs_inv in H1 as (sp & h & q & o & hp & _ & _ & _ & Ho & _ & _ & ->).
      simpl in *. exists (m :: added). rewrite <-app_assoc. simpl.
      split; [done|]. split; [by rewrite <-app_assoc in Hnd'|]. split.
      * intros i oi Hi. destruct (decide (i = m)) as [->|Hne].
        -- rewrite Ho in Hi. injection Hi as <-.
           destruct (Hold m (moved o (getRa_asDegrees q) (getDec_asDegrees q)))
             as (o1 & Ho1 & Hn1).
           { apply list_lookup_insert_eq. by eapply lookup_lt_Some. }
           exists o1. split; [done|]. rewrite Hn1. simpl.
           rewrite (decide_False (P:=m ∈ added)) by done.
           rewrite decide_True by left. lia.
        -- destruct (Hold i oi) as (o1 & Ho1 & Hn1); [by rewrite list_lookup_insert_ne|].
           exists o1. split; [done|]. rewrite Hn1.
           destruct (decide (i ∈ added)) as [Hin|Hnin].
           ++ rewrite decide_True by (by right). done.
           ++ rewrite decide_False; [done|]. by intros [->|?]%elem_of_cons.
      * intros i o' Hi Ho'. rewrite length_insert in Hnew. rewrite (Hnew i o' Hi Ho').
        apply lookup_lt_Some in Ho.
        destruct (decide (i ∈ added)) as [Hin|Hnin].
        -- rewrite decide_True by (by right). done.
        -- rewrite decide_False; [done|]. intros [->|?]%elem_of_cons; [lia|done].
Qed.

(** X8. What [usedMatchIndicies] does guarantee: in a ccdVisit after the
    first, an object that was in the catalog when the ccdVisit began gains at
    most one source, and an object created during the ccdVisit ends it with
    one source or two (its founder, and at most one attached later). *)
Theorem visit_attaches_at_most_once cfg (st : St) v st' :
  length (diaObjectCat st) ≠ 0 →
  associateVisit cfg st v = Ok st' →
  (∀ i o, diaObjectCat st !! i = Some o →
     ∃ o', diaObjectCat st' !! i = Some o'
         ∧ (DiaObject.nDiaSources o ≤ DiaObject.nDiaSources o'
            ≤ DiaObject.nDiaSources o + 1)%Z)
  ∧ (∀ i o', length (diaObjectCat st) ≤ i → diaObjectCat st' !! i = Some o' →
       (1 ≤ DiaObject.nDiaSources o' ≤ 2)%Z).
Proof.
  intros Hlen. rewrite associateVisit_later by done.
  intros ([st1 used1] & H & ->)%fmap_Ok. simpl.
  apply foldM_associate_counts in H as (added & _ & _ & Hold & Hnew);
    [|apply NoDup_nil_2].
  split.
  - intros i o Ho. destruct (Hold i o Ho) as (o' & Ho' & Hn). exists o'.
    split; [done|]. rewrite Hn. case_decide; lia.
  - intros i o' Hi Ho'. rewrite (Hnew i o' Hi Ho'). case_decide; lia.
Qed.

(** ** The nearest, first match *)






(** ** Member counts and the [diaObjectId] column *)

Lemma step_writes cfg (st : St) r i st' :
  step cfg st r i st' →
  ∃ o', diaObjectCat st' !! i = Some o'
      ∧ ∀ r', r' ∈ diaSources st' → key r' = key r →
          DiaSource.diaObjectId r' = Some (DiaObject.diaObjectId o').
Proof.
  intros Hstep. destruct Hstep as [st r st' H|st r m st' H].
  - apply addNewDiaObject_inv in H as (hp & sp & id & idf & _ & _ & _ & ->). simpl.
    eexists. split.
    { rewrite lookup_app_r by lia. by rewrite Nat.sub_diag. }
    intros r' (r0 & _ & Hk & [[_ ->]|[Hne _]])%elem_of_loc_set Hkey; [done|].
    destruct Hne. by rewrite <-Hk, Hkey.
  - apply updateCatalogs_inv in H as (sp & h & q & o & hp & _ & _ & _ & Ho & _ & _ & ->).
    simpl. eexists. split.
    { apply list_lookup_insert_eq. by eapply lookup_lt_Some. }
    intros r' (r0 & _ & Hk & [[_ ->]|[Hne _]])%elem_of_loc_set Hkey; [done|].
    destruct Hne. by rewrite <-Hk, Hkey.
Qed.

Lemma step_keeps cfg (st : St) r i st' r' :
  step cfg st r i st' → r' ∈ diaSources st' → key r' ≠ key r → r' ∈ diaSources st.
Proof.
  intros Hstep. destruct Hstep as [st r st' H|st r m st' H].
  - apply addNewDiaObject_inv in H as (hp & sp & id & idf & _ & _ & _ & ->). simpl.
    intros (r0 & Hin & Hk & [[Heq _]|[_ ->]])%elem_of_loc_set Hkey; [|done].
    destruct Hkey. by rewrite Hk.
  - apply updateCatalogs_inv in H as (sp & h & q & o & hp & _ & _ & _ & Ho & _ & _ & ->).
    simpl.
    intros (r0 & Hin & Hk & [[Heq _]|[_ ->]])%elem_of_loc_set Hkey; [|done].
    destruct Hkey. by rewrite Hk.
Qed.

Lemma steps_keeps cfg (st : St) trace st' r' :
  steps cfg st trace st' → r' ∈ diaSources st' → key r' ∉ key <$> trace.*1 →
  r' ∈ diaSources st.
Proof.
  induction 1 as [st|st r i st1 trace st2 Hstep _ IH]; [done|].
  intros Hin Hnot. rewrite !fmap_cons in Hnot. apply not_elem_of_cons in Hnot as [Hne Hnot].
  eapply step_keeps; [done|by apply IH|done].
Qed.

Lemma steps_persist_id cfg (st : St) trace st' j o :
  steps cfg st trace st' → diaObjectCat st !! j = Some o →
  ∃ o', diaObjectCat st' !! j = Some o'
      ∧ DiaObject.diaObjectId o' = DiaObject.diaObjectId o.
Proof.
  intros Hsteps. revert o.
  induction Hsteps as [st|st r i st1 trace st2 Hstep _ IH]; intros o Ho; [by exists o|].
  destruct (step_persist _ _ _ _ _ Hstep) as [_ Hp].
  destruct (Hp j o Ho) as (o1 & Ho1 & Hid & _).
  destruct (IH o1 Ho1) as (o2 & Ho2 & Hid2). exists o2. split; [done|congruence].
Qed.

(** With distinct index entries in the trace, the rows under the entry of a
    source hold, at the end, the id of the object the source went to. *)
Lemma steps_written cfg (st : St) trace st' r i :
  steps cfg st trace st' → NoDup (key <$> trace.*1) → (r, i) ∈ trace →
  ∃ o, diaObjectCat st' !! i = Some o
     ∧ ∀ r', r' ∈ diaSources st' → key r' = key r →
         DiaSource.diaObjectId r' = Some (DiaObject.diaObjectId o).
Proof.
  induction 1 as [st|st r0 i0 st1 trace st2 Hstep Hsteps IH].
  { by intros _ ?%elem_of_nil. }
  rewrite !fmap_cons. intros [Hnot Hnd]%NoDup_cons [[= -> ->]|Hin]%elem_of_cons.
  - destruct (step_writes _ _ _ _ _ Hstep) as (o1 & Ho1 & Hrows).
    destruct (steps_persist_id _ _ _ _ _ _ Hsteps Ho1) as (o2 & Ho2 & Hid).
    exists o2. split; [done|]. intros r' Hr' Hkey. rewrite Hid.
    apply Hrows; [|done]. eapply steps_keeps; [done..|]. by rewrite Hkey.
  - by apply IH.
Qed.

(** X10. "nDiaSources counts the rows that hold the object's id": when the
    index entries (ccdVisitId, diaSourceId) of the table are distinct, [run]
    returns and the ids the factory gave to the objects are distinct, the
    [nDiaSources] of each returned object is the number of rows of the
    returned table whose [diaObjectId] is the id of that object. *)
Theorem nDiaSources_counts_assigned_rows cfg (tbl : list Row) tp sb tbl' objs :
  NoDup (key <$> tbl) →
  run cfg tbl tp sb = Ok (tbl', objs) →
  NoDup (DiaObject.diaObjectId <$> objs) →
  ∀ o, o ∈ objs →
    DiaObject.nDiaSources o
    = Z.of_nat (length (filter (λ r, DiaSource.diaObjectId r
                                     = Some (DiaObject.diaObjectId o)) tbl')).
Proof.
  intros Hkeys (idf & trace & st & _ & Hsteps & Hfr & -> & ->)%run_steps Hids
         o (i & Ho)%list_elem_of_lookup.
  assert (key <$> trace.*1 ≡ₚ key <$> tbl) as Hperm.
  { rewrite !key_frame, Hfr, <-!key_frame. by rewrite schedule_Permutation. }
  assert (key <$> diaSources st = key <$> tbl) as Hsame by apply (steps_keys _ _ _ _ Hsteps).
  assert (NoDup (key <$> trace.*1)) as Hnd by (by rewrite Hperm).
  rewrite (nDiaSources_counts_sources _ _ _ _ _ _ _ Hsteps Ho). f_equal.
  unfold sources_of.
  rewrite <-(length_fmap key (filter _ (diaSources st))),
          <-(length_fmap key (filter _ trace).*1).
  symmetry. apply Permutation_length, NoDup_Permutation.
  - apply (sublist_NoDup _ (key <$> diaSources st)); [by rewrite Hsame|].
    apply fmap_sublist, sublist_filter.
  - apply (sublist_NoDup _ (key <$> trace.*1)); [done|].
    do 2 apply fmap_sublist. apply sublist_filter.
  - intros k. split.
    + intros (r' & -> & [Hid Hr']%list_elem_of_filter)%list_elem_of_fmap.
      assert (key r' ∈ key <$> trace.*1) as (r & Hk & ([r0 j] & Hr & Hin)%list_elem_of_fmap)%list_elem_of_fmap.
      { rewrite Hperm, <-Hsame. by apply list_elem_of_fmap_2. }
      simpl in Hr. subst r.
      destruct (steps_written _ _ _ _ _ _ Hsteps Hnd Hin) as (oj & Hoj & Hrows).
      rewrite (Hrows r' Hr' Hk) in Hid. injection Hid as Hid.
      assert (j = i) as ->.
      { eapply (NoDup_lookup _ _ _ _ Hids); rewrite list_lookup_fmap.
        - by rewrite Hoj.
        - rewrite Ho. simpl. by rewrite Hid. }
      rewrite Hk. apply list_elem_of_fmap_2, list_elem_of_fmap.
      exists (r0, i). split; [done|]. by apply list_elem_of_filter.
    + intros (r & -> & ([r0 j] & Hr & [Hj Hin]%list_elem_of_filter)%list_elem_of_fmap)%list_elem_of_fmap.
      simpl in Hr, Hj. subst r j.
      assert (key r0 ∈ key <$> diaSources st) as (r' & Hk & Hr')%list_elem_of_fmap.
      { rewrite Hsame, <-Hperm. apply list_elem_of_fmap_2, list_elem_of_fmap.
        by exists (r0, i). }
      destruct (steps_written _ _ _ _ _ _ Hsteps Hnd Hin) as (oi & Hoi & Hrows).
      rewrite Ho in Hoi. injection Hoi as <-.
      rewrite Hk. apply list_elem_of_fmap_2, list_elem_of_filter. split; [|done].
      by apply Hrows.
Qed.

(** ** Where an object sits *)

Lemma step_position cfg (S : F → F → Prop) (st : St) r i st' :
  step cfg st r i st' → S (DiaSource.ra r) (DiaSource.decl r) →
  parallel_inv st →
  (∀ j o h, diaObjectCat st !! j = Some o → diaObjectCoords st !! j = Some h →
     (DiaObject.nDiaSources o = 1%Z ∧ S (DiaObject.ra o) (DiaObject.decl o))
     ∨ ((2 ≤ DiaObject.nDiaSources o)%Z
        ∧ ∃ q, averageSpherePoint h = Returns q
             ∧ DiaObject.ra o = getRa_asDegrees q ∧ DiaObject.decl o = getDec_asDegrees q)) →
  ∀ j o h, diaObjectCat st' !! j = Some o → diaObjectCoords st' !! j = Some h →
     (DiaObject.nDiaSources o = 1%Z ∧ S (DiaObject.ra o) (DiaObject.decl o))
     ∨ ((2 ≤ DiaObject.nDiaSources o)%Z
        ∧ ∃ q, averageSpherePoint h = Returns q
             ∧ DiaObject.ra o = getRa_asDegrees q ∧ DiaObject.decl o = getDec_asDegrees q).
Proof.
  intros Hstep HS (Hl1 & Hl2 & Hn) Hinv. destruct Hstep as [st r st' H|st r m st' H].
  - apply addNewDiaObject_inv in H as (hp & sp & id & idf & _ & _ & _ & ->). simpl.
    intros j o h [[Hj Ho]|[Hj Ho]]%lookup_snoc_Some.
    + rewrite lookup_app_l by lia.
      intros Hh. exact (Hinv j o h Ho Hh).
    + intros _. subst o. left. by split.
  - apply updateCatalogs_inv in H as (sp & h0 & q & o0 & hp & _ & Hh0 & Hq & Ho0 & _ & _ & ->).
    simpl. intros j o h Ho Hh. destruct (decide (j = m)) as [->|Hne].
    + rewrite list_lookup_insert_eq in Ho by (by eapply lookup_lt_Some).
      rewrite list_lookup_insert_eq in Hh by (by eapply lookup_lt_Some).
      injection Ho as <-. injection Hh as <-. right. split.
      * simpl. destruct (Hinv m o0 h0 Ho0 Hh0) as [[-> _]|[? _]]; lia.
      * by exists q.
    + rewrite list_lookup_insert_ne in Ho by done.
      rewrite list_lookup_insert_ne in Hh by done. exact (Hinv j o h Ho Hh).
Qed.

Lemma steps_position cfg (S : F → F → Prop) (st : St) trace st' :
  steps cfg st trace st' →
  Forall (λ x, S (DiaSource.ra x.1) (DiaSource.decl x.1)) trace →
  parallel_inv st →
  (∀ j o h, diaObjectCat st !! j = Some o → diaObjectCoords st !! j = Some h →
     (DiaObject.nDiaSources o = 1%Z ∧ S (DiaObject.ra o) (DiaObject.decl o))
     ∨ ((2 ≤ DiaObject.nDiaSources o)%Z
        ∧ ∃ q, averageSpherePoint h = Returns q
             ∧ DiaObject.ra o = getRa_asDegrees q ∧ DiaObject.decl o = getDec_asDegrees q)) →
  ∀ j o h, diaObjectCat st' !! j = Some o → diaObjectCoords st' !! j = Some h →
     (DiaObject.nDiaSources o = 1%Z ∧ S (DiaObject.ra o) (DiaObject.decl o))
     ∨ ((2 ≤ DiaObject.nDiaSources o)%Z
        ∧ ∃ q, averageSpherePoint h = Returns q
             ∧ DiaObject.ra o = getRa_asDegrees q ∧ DiaObject.decl o = getDec_asDegrees q).
Proof.
  induction 1 as [st|st r i st1 trace st2 Hstep _ IH]; [done|].
  intros [HS Hall]%Forall_cons Hpar Hinv. apply IH; [done| |].
  - by eapply parallel_inv_step.
  - exact (step_position cfg S st r i st1 Hstep HS Hpar Hinv).
Qed.

(** X11. "An object sits on its one source, or at an average": when [run]
    returns, an object with [nDiaSources] 1 has the [ra] and [decl] of a row
    of the table, as they are; an object with more has the [getRa()] and
    [getDec()] in degrees of what [averageSpherePoint] returned for a list of
    [nDiaSources] points.  Nothing is asked of [lsst.geom]. *)
Theorem object_sits_on_its_source_or_at_an_average cfg (tbl : list Row) tp sb tbl' objs :
  run cfg tbl tp sb = Ok (tbl', objs) →
  ∀ o, o ∈ objs →
    (DiaObject.nDiaSources o = 1%Z
     ∧ ∃ r, r ∈ tbl ∧ DiaObject.ra o = DiaSource.ra r ∧ DiaObject.decl o = DiaSource.decl r)
    ∨ ((2 ≤ DiaObject.nDiaSources o)%Z
       ∧ ∃ (h : list SP) q,
           Z.of_nat (length h) = DiaObject.nDiaSources o
           ∧ averageSpherePoint h = Returns q
           ∧ DiaObject.ra o = getRa_asDegrees q ∧ DiaObject.decl o = getDec_asDegrees q).
Proof.
  intros (idf & trace & st & _ & Hsteps & Hfr & -> & ->)%run_steps
         o (j & Ho)%list_elem_of_lookup.
  pose proof (steps_parallel_inv _ _ _ _ (parallel_inv_initial tbl idf) Hsteps)
    as (Hl1 & _ & Hn).
  destruct (lookup_lt_is_Some_2 (diaObjectCoords st) j) as [h Hh].
  { rewrite <-Hl1. by eapply lookup_lt_Some. }
  destruct (steps_position cfg
              (λ a d, ∃ r : Row, r ∈ tbl ∧ a = DiaSource.ra r ∧ d = DiaSource.decl r)
              _ _ _ Hsteps) with (j := j) (o := o) (h := h) as [?|[? (q & ? & ? & ?)]];
    [|apply parallel_inv_initial|done|done|done|by left|].
  - apply Forall_forall. intros [r i] Hin. simpl.
    assert (frame r ∈ frame <$> schedule tbl) as (r0 & Hr0 & Hin0)%list_elem_of_fmap.
    { rewrite <-Hfr. apply list_elem_of_fmap_2, list_elem_of_fmap. by exists (r, i). }
    exists r0. rewrite schedule_Permutation in Hin0. unfold frame in Hr0.
    split; [done|]. split; congruence.
  - right. split; [done|]. exists h, q. split; [|done]. symmetry. by eapply Hn.
Qed.

(** ** A table of one ccdVisit *)

Lemma foldM_create_trace cfg v (st : St) (rs : list Row) st' :
  Forall (λ r, DiaSource.ccdVisitId r = v) rs →
  foldM (λ st diaSrc, addNewDiaObject cfg diaSrc v (DiaSource.diaSourceId diaSrc) st)
        st rs = Ok st' →
  steps cfg st (zip rs (seq (length (diaObjectCat st)) (length rs))) st'.
Proof.
  intros Hall. revert st. induction Hall as [|r rs Hr _ IH]; intros st; cbn [foldM].
  - intros [= <-]. constructor.
  - intros (st1 & H1 & Hrest)%bind_Ok. simpl. subst v. econstructor.
    + by apply step_create.
    + specialize (IH st1 Hrest).
      apply addNewDiaObject_inv in H1 as (hp & sp & id & idf & _ & _ & _ & ->).
      simpl in IH. rewrite length_app in IH. simpl in IH.
      by rewrite Nat.add_1_r in IH.
Qed.

Lemma remove_dups_constant (v : Z) (l : list Z) :
  Forall (λ x, x = v) l → l ≠ [] → remove_dups l = [v].
Proof.
  induction 1 as [|x l -> Hall IH]; [done|]. intros _. cbn [remove_dups].
  destruct (decide_rel elem_of v l) as [Hin|Hnot].
  - apply IH. intros ->. by apply elem_of_nil in Hin.
  - destruct Hall as [|y l -> _]; [done|]. destruct Hnot. by left.
Qed.

(** X12. "A table of one ccdVisit founds one object per row": when every row
    has the same ccdVisitId and [run] returns, the objects are as many as the
    rows and the i-th object has the [ra] and [decl] of the i-th row and
    [nDiaSources] 1, however near to each other the sources are; and when
    the diaSourceIds differ (distinct index entries), the i-th row holds the
    id of the i-th object. *)
Theorem one_ccdVisit_founds_one_object_per_row cfg (tbl : list Row) v tp sb tbl' objs :
  (∀ r, r ∈ tbl → DiaSource.ccdVisitId r = v) →
  run cfg tbl tp sb = Ok (tbl', objs) →
  (λ o, (DiaObject.ra o, DiaObject.decl o, DiaObject.nDiaSources o)) <$> objs
  = (λ r, (DiaSource.ra r, DiaSource.decl r, 1%Z)) <$> tbl
  ∧ (NoDup (key <$> tbl) →
     DiaSource.diaObjectId <$> tbl' = (λ o, Some (DiaObject.diaObjectId o)) <$> objs).
Proof.
  intros Hv Hrun. apply Forall_forall in Hv.
  destruct tbl as [|r0 tbl0] eqn:Htbl.
  { unfold run in Hrun. apply bind_Ok in Hrun as (idf & _ & Hrun).
    change (index_levels0 (@nil Row)) with (@nil Z) in Hrun. cbn [foldM] in Hrun.
    simpl in Hrun. by injection Hrun as <- <-. }
  rewrite <-Htbl in *.
  assert (index_levels0 tbl = [v]) as Hlev.
  { unfold index_levels0. rewrite (remove_dups_constant v); [done| |by rewrite Htbl].
    by apply Forall_fmap. }
  clear r0 tbl0 Htbl.
  assert (loc_visit tbl v = tbl) as Hloc.
  { unfold loc_visit. clear -Hv. induction Hv as [|r l Hr _ IH]; [done|].
    rewrite filter_cons_True by done. by rewrite IH. }
  unfold run in Hrun. apply bind_Ok in Hrun as (idf & _ & Hrun).
  rewrite Hlev in Hrun. cbn [foldM] in Hrun.
  apply bind_Ok in Hrun as (st & Hrun & [= <- <-]).
  apply bind_Ok in Hrun as (st1 & Hvisit & [= <-]).
  unfold associateVisit in Hvisit. rewrite decide_True in Hvisit by done.
  simpl in Hvisit. rewrite Hloc in Hvisit.
  pose proof (foldM_create_catalog _ _ _ _ _ Hvisit) as Hcat. simpl in Hcat.
  split; [done|]. intros Hnd.
  pose proof (foldM_create_trace _ _ _ _ _ Hv Hvisit) as Hsteps. simpl in Hsteps.
  pose proof (steps_keys _ _ _ _ Hsteps) as Hkeys. simpl in Hkeys.
  assert (length (diaObjectCat st1) = length tbl) as Hlen.
  { apply (f_equal length) in Hcat. by rewrite !length_fmap in Hcat. }
  assert (length (diaSources st1) = length tbl) as Hlen'.
  { apply (f_equal length) in Hkeys. by rewrite !length_fmap in Hkeys. }
  apply list_eq. intros i. rewrite !list_lookup_fmap.
  destruct (diaSources st1 !! i) as [r'|] eqn:Hr'; simpl.
  - destruct (lookup_lt_is_Some_2 tbl i) as [r Hr].
    { rewrite <-Hlen'. by eapply lookup_lt_Some. }
    assert (key r' = key r) as Hk.
    { assert ((key <$> diaSources st1) !! i = (key <$> tbl) !! i) as H by (by rewrite Hkeys).
      rewrite !list_lookup_fmap, Hr', Hr in H. cbn [fmap option_fmap option_map] in H.
      congruence. }
    destruct (steps_written _ _ _ _ r i Hsteps) as (o & Ho & Hrows).
    + replace (zip tbl (seq 0 (length tbl))).*1 with tbl; [done|].
      symmetry. apply fst_zip. by rewrite length_seq.
    + apply list_elem_of_lookup. exists i. apply lookup_zip_with_Some.
      exists r, i. split; [done|]. split; [done|].
      apply lookup_seq. split; [done|]. by eapply lookup_lt_Some.
    + rewrite Ho. simpl. f_equal. apply Hrows; [|done]. by eapply list_elem_of_lookup_2.
  - apply lookup_ge_None in Hr'. rewrite lookup_ge_None_2; [done|]. lia.
Qed.

(** ** The interleaving of the ccdVisits in the table *)

Lemma core_create cfg v1 s1 v2 s2 (st1 st2 : St) (r1 r2 : Row) :
  same_core st1 st2 → DiaSource.ra r1 = DiaSource.ra r2 →
  DiaSource.decl r1 = DiaSource.decl r2 →
  rel_result same_core
    (addNewDiaObject cfg r1 v1 s1 st1) (addNewDiaObject cfg r2 v2 s2 st2).
Proof.
  intros (Hc & Hco & Hh & Hi) Hra Hdec. unfold addNewDiaObject.
  rewrite Hra, Hdec, Hi.
  destruct (call (toIndex _ _ _)) as [hp|e]; simpl; [|done].
  destruct (call (SpherePoint _ _)) as [sp|e]; simpl; [|done].
  destruct (call (addNew_id _)) as [[id idf]|e]; simpl; [|done].
  unfold same_core; simpl. by rewrite Hc, Hco, Hh.
Qed.

Lemma core_attach cfg m v1 s1 v2 s2 (st1 st2 : St) (r1 r2 : Row) :
  same_core st1 st2 → DiaSource.ra r1 = DiaSource.ra r2 →
  DiaSource.decl r1 = DiaSource.decl r2 →
  rel_result same_core
    (updateCatalogs cfg m r1 v1 s1 st1) (updateCatalogs cfg m r2 v2 s2 st2).
Proof.
  intros (Hc & Hco & Hh & Hi) Hra Hdec. unfold updateCatalogs.
  rewrite Hra, Hdec, Hc, Hco, Hh, Hi.
  destruct (call (SpherePoint _ _)) as [sp|e]; simpl; [|done].
  destruct (getitem (diaObjectCoords st2) m) as [h|e]; simpl; [|done].
  destruct (call (averageSpherePoint _)) as [q|e]; simpl; [|done].
  destruct (getitem (diaObjectCat st2) m) as [o|e]; simpl; [|done].
  destruct (call (toIndex _ _ _)) as [hp|e]; simpl; [|done].
  destruct (setitem _ _ _) as [hps|e]; simpl; [|done].
  by unfold same_core.
Qed.

Lemma core_associateSource cfg v (st1 st2 : St) used (r1 r2 : Row) :
  same_core st1 st2 → observed r1 = observed r2 →
  rel_result (λ a b, same_core a.1 b.1 ∧ a.2 = b.2)
    (associateSource cfg v (st1, used) r1) (associateSource cfg v (st2, used) r2).
Proof.
  intros Hsim Hobs. pose proof Hsim as (Hc & Hco & Hh & Hi).
  unfold observed in Hobs. injection Hobs as Hv Hs Hra Hdec.
  pose proof (core_create cfg v (DiaSource.diaSourceId r1) v (DiaSource.diaSourceId r2)
                _ _ _ _ Hsim Hra Hdec) as Hnew.
  unfold associateSource. rewrite <-Hra, <-Hdec, <-Hc, <-Hh.
  destruct (findMatches _ _ _ _ _ _) as [[[dists matches]|]|e]; simpl; [| |done].
  - destruct (np_min dists) as [least|e]; simpl; [|done].
    destruct (Flt least (match_radius cfg)).
    + destruct (np_argmin dists) as [a|e]; simpl; [|done].
      destruct (getitem matches a) as [m|e]; simpl; [|done].
      case_decide.
      * pose proof (core_attach cfg m v (DiaSource.diaSourceId r1)
                      v (DiaSource.diaSourceId r2) _ _ _ _ Hsim Hra Hdec) as Hup.
        destruct (updateCatalogs _ _ r1 _ _ _), (updateCatalogs _ _ r2 _ _ _); by simpl in *.
      * destruct (addNewDiaObject _ r1 _ _ _), (addNewDiaObject _ r2 _ _ _); by simpl in *.
    + destruct (addNewDiaObject _ r1 _ _ _), (addNewDiaObject _ r2 _ _ _); by simpl in *.
  - destruct (addNewDiaObject _ r1 _ _ _), (addNewDiaObject _ r2 _ _ _); by simpl in *.
Qed.

Lemma core_foldM_associate cfg v (st1 st2 : St) used (rs1 rs2 : list Row) :
  same_core st1 st2 → Forall2 (λ r1 r2, observed r1 = observed r2) rs1 rs2 →
  rel_result (λ a b, same_core a.1 b.1 ∧ a.2 = b.2)
    (foldM (associateSource cfg v) (st1, used) rs1)
    (foldM (associateSource cfg v) (st2, used) rs2).
Proof.
  intros Hsim HF. revert st1 st2 used Hsim.
  induction HF as [|r1 r2 rs1 rs2 Hobs _ IH]; intros st1 st2 used Hsim; cbn [foldM].
  - by simpl.
  - pose proof (core_associateSource cfg v _ _ used _ _ Hsim Hobs) as H.
    destruct (associateSource _ _ (st1, _) _) as [[a u]|e1],
             (associateSource _ _ (st2, _) _) as [[b u']|e2]; simpl in *; try done.
    destruct H as [H <-]. by apply IH.
Qed.

Lemma core_foldM_create cfg v (st1 st2 : St) (rs1 rs2 : list Row) :
  same_core st1 st2 → Forall2 (λ r1 r2, observed r1 = observed r2) rs1 rs2 →
  rel_result same_core
    (foldM (λ st diaSrc, addNewDiaObject cfg diaSrc v (DiaSource.diaSourceId diaSrc) st)
           st1 rs1)
    (foldM (λ st diaSrc, addNewDiaObject cfg diaSrc v (DiaSource.diaSourceId diaSrc) st)
           st2 rs2).
Proof.
  intros Hsim HF. revert st1 st2 Hsim.
  induction HF as [|r1 r2 rs1 rs2 Hobs _ IH]; intros st1 st2 Hsim; cbn [foldM].
  - by simpl.
  - pose proof Hobs as Hobs'. unfold observed in Hobs'. injection Hobs' as Hv Hs Hra Hdec.
    pose proof (core_create cfg v (DiaSource.diaSourceId r1) v (DiaSource.diaSourceId r2)
                  _ _ _ _ Hsim Hra Hdec) as H.
    destruct (addNewDiaObject _ r1 _ _ _) as [a|e1],
             (addNewDiaObject _ r2 _ _ _) as [b|e2]; simpl in *; try done.
    by apply IH.
Qed.

Lemma fmap_eq_Forall2 {A B} (f : A → B) (l1 l2 : list A) :
  f <$> l1 = f <$> l2 → Forall2 (λ x y, f x = f y) l1 l2.
Proof.
  revert l2. induction l1 as [|x l1 IH]; intros [|y l2] H; try done.
  rewrite !fmap_cons in H. apply (inj2 cons) in H as [Hx Hl].
  constructor; [done|]. by apply IH.
Qed.

Lemma core_associateVisit cfg (st1 st2 : St) v :
  same_core st1 st2 → same_visits (diaSources st1) (diaSources st2) →
  rel_result (λ a b, same_core a b ∧ same_visits (diaSources a) (diaSources b))
    (associateVisit cfg st1 v) (associateVisit cfg st2 v).
Proof.
  intros Hsim Hvis. pose proof Hsim as (Hc & _).
  pose proof (fmap_eq_Forall2 _ _ _ (Hvis v)) as HF.
  pose proof (associateVisit_steps cfg st1 v) as Hsteps1.
  pose proof (associateVisit_steps cfg st2 v) as Hsteps2.
  assert (∀ a b : St,
    associateVisit cfg st1 v = Ok a → associateVisit cfg st2 v = Ok b →
    same_visits (diaSources a) (diaSources b)) as Hkeep.
  { intros a b (t1 & Ht1%steps_frame & _)%Hsteps1 (t2 & Ht2%steps_frame & _)%Hsteps2 w.
    rewrite !observed_frame.
    rewrite (loc_visit_frame _ _ w Ht1), (loc_visit_frame _ _ w Ht2).
    rewrite <-!observed_frame. apply Hvis. }
  clear Hsteps1 Hsteps2.
  assert (rel_result same_core (associateVisit cfg st1 v) (associateVisit cfg st2 v))
    as Hcore.
  { unfold associateVisit. rewrite <-Hc. case_decide as Hlen.
    - by apply core_foldM_create.
    - pose proof (core_foldM_associate cfg v _ _ [] _ _ Hsim HF) as H.
      destruct (foldM _ (st1, _) _) as [[a' ua]|], (foldM _ (st2, _) _) as [[b' ub]|];
        simpl in *; try done.
      by destruct H. }
  destruct (associateVisit cfg st1 v) as [a|e1] eqn:H1,
           (associateVisit cfg st2 v) as [b|e2] eqn:H2; simpl in *; try done.
  split; [done|by apply Hkeep].
Qed.

Lemma core_visits cfg (st1 st2 : St) (vs : list Z) :
  same_core st1 st2 → same_visits (diaSources st1) (diaSources st2) →
  rel_result same_core
    (foldM (associateVisit cfg) st1 vs) (foldM (associateVisit cfg) st2 vs).
Proof.
  revert st1 st2. induction vs as [|v vs IH]; intros st1 st2 Hsim Hvis; cbn [foldM].
  - by simpl.
  - pose proof (core_associateVisit cfg _ _ v Hsim Hvis) as H.
    destruct (associateVisit _ st1 _) as [a|e1], (associateVisit _ st2 _) as [b|e2];
      simpl in *; try done.
    destruct H. by apply IH.
Qed.

Lemma same_visits_ccdVisitIds (t1 t2 : list Row) v :
  same_visits t1 t2 →
  v ∈ DiaSource.ccdVisitId <$> t1 → v ∈ DiaSource.ccdVisitId <$> t2.
Proof.
  intros Hvis (r & -> & Hr)%list_elem_of_fmap.
  assert (observed r ∈ observed <$> loc_visit t2 (DiaSource.ccdVisitId r))
    as (r2 & Hobs & [Hv Hr2]%list_elem_of_filter)%list_elem_of_fmap.
  { rewrite <-Hvis. apply list_elem_of_fmap_2. by apply list_elem_of_filter. }
  rewrite <-Hv. by apply list_elem_of_fmap_2.
Qed.

Lemma same_visits_levels (t1 t2 : list Row) :
  same_visits t1 t2 → index_levels0 t1 = index_levels0 t2.
Proof.
  intros Hvis. unfold index_levels0.
  apply (Sorted_unique Z.le); [apply Sorted_merge_sort, _..|].
  rewrite !merge_sort_Permutation.
  apply NoDup_Permutation; [apply NoDup_remove_dups..|].
  intros v. rewrite !elem_of_remove_dups. split.
  - by apply same_visits_ccdVisitIds.
  - apply same_visits_ccdVisitIds. intros w. symmetry. apply Hvis.
Qed.

(** X13. "Reproducible by ccdVisit ordering": the outcome of [run] does not
    depend on how the rows of different ccdVisits are interleaved in the
    table.  Two tables that hold, under every ccdVisitId, the same sources
    (index entries and positions) in the same order give the same exception
    or the same object table. *)
Theorem objects_do_not_depend_on_interleaving cfg (t1 t2 : list Row) tp sb :
  same_visits t1 t2 →
  rel_result (λ a b, a.2 = b.2) (run cfg t1 tp sb) (run cfg t2 tp sb).
Proof.
  intros Hvis. unfold run. rewrite <-(same_visits_levels _ _ Hvis).
  destruct (call (IdFactory_makeSource _ _)) as [idf|e]; simpl; [|done].
  assert (same_core (initial t1 idf) (initial t2 idf : St)) as Hsim by done.
  pose proof (core_visits cfg _ _ (index_levels0 t1) Hsim Hvis) as H.
  destruct (foldM _ (initial t1 idf) _) as [a|e1], (foldM _ (initial t2 idf) _) as [b|e2];
    simpl in *; try done.
  by destruct H.
Qed.

End AssociationExtras.

(** * The theorems at work on the planar test double *)

Module LatticeRuns.
Import Lattice.

Lemma pair_steps :
  steps config (initial pair idf0) [(src 1 1 0 0, 0); (src 2 2 1 0, 0)] pair_attached.
Proof.
  apply (steps_cons _ _ _ _ pair_created).
  - apply (step_create _ (initial pair idf0)). vm_compute. reflexivity.
  - apply (steps_cons _ _ _ _ pair_attached).
    + apply (step_attach _ _ _ 0). vm_compute. reflexivity.
    + apply steps_nil.
Qed.


Lemma conservation_witness :
  run config table 5 16 = Ok output
  ∧ total_nDiaSources output.2 = Z.of_nat (length table).
Proof.
  split; [vm_compute; reflexivity|].
  apply (conservation config table 5 16 output.1 output.2). vm_compute. reflexivity.
Defined.

Lemma exclusivity_witness :
  ∃ r', output.1 !! 3 = Some r' ∧ frame r' = frame (src 2 4 3 0) ∧ assigned output.2 r'.
Proof.
  apply (exclusivity config table 5 16 output.1 output.2); vm_compute; reflexivity.
Defined.

Lemma frame_preserved_witness : frame <$> output.1 = frame <$> table.
Proof.
  apply (frame_preserved config table 5 16 output.1 output.2). vm_compute. reflexivity.
Defined.

Lemma parallel_state_invariant_witness : parallel_inv pair_attached.
Proof.
  apply (parallel_state_invariant config pair idf0 [(src 1 1 0 0, 0); (src 2 2 1 0, 0)]),
    pair_steps.
Defined.


Lemma determinism_witness :
  same_outputs (run config table 5 16) (run config output.1 5 16).
Proof. apply determinism. vm_compute. reflexivity. Defined.

Lemma distance_bound_witness :
  (∃ m o, diaObjectCat after_visit1 !! m = Some o ∧ [0] = [] ++ [m]
        ∧ updateCatalogs config m (src 2 3 1 0) 2 3 after_visit1 = Ok after_source3
        ∧ Flt (unit_vector_distance 1%Z 0%Z (DiaObject.ra o) (DiaObject.decl o))
              (match_radius config) = true)
  ∧ associateSource config 2 (after_visit1, []) (src 2 9 0 8)
    = (λ st', (st', [])) <$> addNewDiaObject config (src 2 9 0 8) 2 9 after_visit1.
Proof.
  split.
  - apply (proj1 (distance_bound config 2 after_visit1 [] (src 2 3 1 0))).
    + vm_compute. reflexivity.
    + reflexivity.
  - apply (proj2 (distance_bound config 2 after_visit1 [] (src 2 9 0 8))
             [8; 12]%Z [0; 1] 8%Z); vm_compute; reflexivity.
Defined.


Lemma raises_only_what_collaborators_raise_witness :
  ∃ x, Collaborator BadNside = Collaborator x.
Proof.
  apply (raises_only_what_collaborators_raise
           {| tolerance := 28800%Z; nside := 0%Z |} table 5 16).
  vm_compute. reflexivity.
Defined.

Lemma same_visit_sources_share_object_witness :
  run config [src 1 1 0 0; src 2 2 300 300; src 2 3 300 300]%Z 5 16
  = Ok ([DiaSource.mk 1 1 0 0 (Some 1407374883553281) tt;
         DiaSource.mk 2 2 300 300 (Some 1407374883553282) tt;
         DiaSource.mk 2 3 300 300 (Some 1407374883553282) tt]%Z,
        [createDiaObject 1407374883553281 0 0;
         moved (createDiaObject 1407374883553282 300 300) 300 300]%Z).
Proof.
  refine (same_visit_sources_share_object config 5 16 0 0 300 300 tt tt tt
           idf0 {| upper := Z.shiftl 5 48; sequence := 1; reserved := 48 |}
           {| upper := Z.shiftl 5 48; sequence := 2; reserved := 48 |}
           1407374883553281 1407374883553282 0 18874386 18874386
           (0, 0) (300, 300) (300, 300) disc_300 _ _ _ _ _ _ _ _ _ _ _ _ _)%Z;
    try (vm_compute; reflexivity).
  - apply (bool_decide_unpack _). vm_compute. exact I.
  - apply (bool_decide_unpack _). vm_compute. exact I.
Defined.

(** The claim of C8 fails on the code. With a tolerance of zero, or a
    negative one, [run] returns: no source is attached and each founds an
    object.  With [nside = 0] it returns the empty tables for an empty table,
    and for a table with rows the exception is the one [toIndex] raises on
    the first source: nothing is checked at entry and the task has no
    exception of its own for it. *)
Lemma degenerate_configuration_is_not_rejected :
  (run {| tolerance := 0%Z; nside := 256%Z |} pair 5 16 = Ok zero_tolerance_output
   ∧ length zero_tolerance_output.2 = 2)
  ∧ (run {| tolerance := (-28800)%Z; nside := 256%Z |} pair 5 16
     = Ok negative_tolerance_output
     ∧ length negative_tolerance_output.2 = 2)
  ∧ run {| tolerance := 28800%Z; nside := 0%Z |} ([] : list (DiaSource.t Z unit)) 5 16
    = Ok ([], [])
  ∧ run {| tolerance := 28800%Z; nside := 0%Z |} pair 5 16
    = Raise (Collaborator BadNside).
Proof. repeat split; vm_compute; reflexivity. Qed.

End LatticeRuns.

(** * The further properties at work on the planar test double *)

Module LatticeExtras.
Import Lattice.


Lemma attach_step :
  steps config pair_created [(src 2 2 1 0, 0)] pair_attached.
Proof.
  apply (steps_cons _ _ _ _ pair_attached).
  - apply (step_attach _ _ _ 0). vm_compute. reflexivity.
  - apply steps_nil.
Qed.

(** The source at (1, 0) has both objects of ccdVisit 1 among its
    candidates, at distances 1 and 9. *)
Lemma findMatches_candidates_witness :
  StronglySorted lt [0; 1]
  ∧ (∀ m, m ∈ [0; 1] ↔ ∃ c, healPixIndices after_visit1 !! m = Some c ∧ c ∈ disc_1)
  ∧ length [1; 9]%Z = length [0; 1]
  ∧ ∀ a m, [0; 1] !! a = Some m →
      ∃ o, diaObjectCat after_visit1 !! m = Some o
         ∧ [1; 9]%Z !! a
           = Some (unit_vector_distance 1%Z 0%Z (DiaObject.ra o) (DiaObject.decl o)).
Proof.
  refine (proj2 (findMatches_candidates config 1%Z 0%Z 57600%Z
                   (healPixIndices after_visit1) (diaObjectCat after_visit1) disc_1 _)
            [1; 9]%Z [0; 1] _);
    vm_compute; reflexivity.
Defined.

Lemma updateCatalogs_touches_one_object_witness :
  (length (diaObjectCat pair_attached) = length (diaObjectCat pair_created)
   ∧ idCat pair_attached = idCat pair_created
   ∧ (∀ j, j ≠ 0 →
        diaObjectCat pair_attached !! j = diaObjectCat pair_created !! j
        ∧ diaObjectCoords pair_attached !! j = diaObjectCoords pair_created !! j
        ∧ healPixIndices pair_attached !! j = healPixIndices pair_created !! j)
   ∧ ∃ o o' h sp,
       diaObjectCat pair_created !! 0 = Some o ∧ diaObjectCat pair_attached !! 0 = Some o'
       ∧ DiaObject.diaObjectId o' = DiaObject.diaObjectId o
       ∧ auxiliary o' = auxiliary o
       ∧ DiaObject.nDiaSources o' = (DiaObject.nDiaSources o + 1)%Z
       ∧ point_of sp (src 2 2 1 0)
       ∧ diaObjectCoords pair_created !! 0 = Some h
       ∧ diaObjectCoords pair_attached !! 0 = Some (h ++ [sp]))
  ∧ updateCatalogs config 1 (src 2 2 1 0) 2 2 pair_created = Raise IndexError.
Proof.
  split.
  - refine (proj1 (updateCatalogs_touches_one_object config 0 (src 2 2 1 0) 2 2
                     pair_created) pair_attached _).
    vm_compute. reflexivity.
  - refine (proj2 (updateCatalogs_touches_one_object config 1 (src 2 2 1 0) 2 2
                     pair_created) (1, 0)%Z _ _).
    + reflexivity.
    + vm_compute. lia.
Defined.

Lemma objects_persist_witness :
  length (diaObjectCat pair_created) ≤ length (diaObjectCat pair_attached)
  ∧ ∀ j o, diaObjectCat pair_created !! j = Some o →
      ∃ o', diaObjectCat pair_attached !! j = Some o'
          ∧ DiaObject.diaObjectId o' = DiaObject.diaObjectId o
          ∧ auxiliary o' = auxiliary o
          ∧ (DiaObject.nDiaSources o ≤ DiaObject.nDiaSources o')%Z.
Proof.
  apply (objects_persist config pair_created [(src 2 2 1 0, 0)] pair_attached), attach_step.
Defined.

Lemma ids_are_issued_in_order_witness :
  ∃ idf idf',
    IdFactory_makeSource (F:=Z) 5 (64 - 16) = Returns idf
    ∧ issued (length output.2) idf = Some (DiaObject.diaObjectId <$> output.2, idf').
Proof.
  refine (ids_are_issued_in_order config table 5 16 output.1 output.2 _).
  vm_compute. reflexivity.
Defined.

Lemma returned_objects_are_well_formed_witness :
  (∀ o, o ∈ output.2 →
     (1 ≤ DiaObject.nDiaSources o)%Z ∧ auxiliary o = replicate 11 0%Z)
  ∧ length output.2 ≤ length table
  ∧ (table ≠ [] → output.2 ≠ []).
Proof.
  apply (returned_objects_are_well_formed config table 5 16 output.1 output.2).
  vm_compute. reflexivity.
Defined.

Lemma first_visit_founds_one_object_per_source_witness :
  (λ o, (DiaObject.ra o, DiaObject.decl o, DiaObject.nDiaSources o))
    <$> diaObjectCat after_visit1
  = (λ r, (DiaSource.ra r, DiaSource.decl r, 1%Z)) <$> loc_visit table 1.
Proof.
  apply (first_visit_founds_one_object_per_source config (initial table idf0) 1 after_visit1);
    vm_compute; reflexivity.
Defined.

(** With no skymap bit there is no room for the id of the tract patch. *)
Lemma run_starts_with_the_factory_witness :
  run config table 5 0 = Raise (Collaborator ExposureIdTooLarge)
  ∧ run config ([] : list (DiaSource.t Z unit)) 5 16 = Ok ([], []).
Proof.
  split.
  - refine (proj1 (run_starts_with_the_factory config 5 0) ExposureIdTooLarge table _).
    vm_compute. reflexivity.
  - refine (proj2 (run_starts_with_the_factory config 5 16) idf0 _).
    vm_compute. reflexivity.
Defined.

Lemma visit_attaches_at_most_once_witness :
  (∀ i o, diaObjectCat after_visit1 !! i = Some o →
     ∃ o', diaObjectCat after_visit2 !! i = Some o'
         ∧ (DiaObject.nDiaSources o ≤ DiaObject.nDiaSources o'
            ≤ DiaObject.nDiaSources o + 1)%Z)
  ∧ (∀ i o', length (diaObjectCat after_visit1) ≤ i →
       diaObjectCat after_visit2 !! i = Some o' →
       (1 ≤ DiaObject.nDiaSources o' ≤ 2)%Z).
Proof.
  apply (visit_attaches_at_most_once config after_visit1 2 after_visit2).
  - vm_compute. lia.
  - vm_compute. reflexivity.
Defined.


Lemma nDiaSources_counts_assigned_rows_witness :
  Forall (λ o, DiaObject.nDiaSources o
               = Z.of_nat (length (filter (λ r, DiaSource.diaObjectId r
                                                = Some (DiaObject.diaObjectId o))
                                          output.1)))
         output.2.
Proof.
  apply Forall_forall.
  refine (nDiaSources_counts_assigned_rows config table 5 16 output.1 output.2 _ _ _).
  - apply (bool_decide_unpack _). vm_compute. exact I.
  - vm_compute. reflexivity.
  - apply (bool_decide_unpack _). vm_compute. exact I.
Defined.

Lemma object_sits_on_its_source_or_at_an_average_witness :
  Forall (λ o,
    (DiaObject.nDiaSources o = 1%Z
     ∧ ∃ r, r ∈ table ∧ DiaObject.ra o = DiaSource.ra r ∧ DiaObject.decl o = DiaSource.decl r)
    ∨ ((2 ≤ DiaObject.nDiaSources o)%Z
       ∧ ∃ (h : list (Z * Z)) q,
           Z.of_nat (length h) = DiaObject.nDiaSources o
           ∧ averageSpherePoint h = Returns q
           ∧ DiaObject.ra o = getRa_asDegrees q ∧ DiaObject.decl o = getDec_asDegrees q))
    output.2.
Proof.
  apply Forall_forall.
  refine (object_sits_on_its_source_or_at_an_average config table 5 16 output.1 output.2 _).
  vm_compute. reflexivity.
Defined.

(** Two of the three sources are at the same position, and each founds an
    object. *)
Lemma one_ccdVisit_founds_one_object_per_row_witness :
  (λ o, (DiaObject.ra o, DiaObject.decl o, DiaObject.nDiaSources o)) <$> crowd_output.2
  = (λ r, (DiaSource.ra r, DiaSource.decl r, 1%Z)) <$> crowd
  ∧ DiaSource.diaObjectId <$> crowd_output.1
    = (λ o, Some (DiaObject.diaObjectId o)) <$> crowd_output.2.
Proof.
  destruct (one_ccdVisit_founds_one_object_per_row config crowd 1 5 16
              crowd_output.1 crowd_output.2) as [Hobjs Hids].
  - intros r Hr. apply (Forall_forall (λ r, DiaSource.ccdVisitId r = 1%Z) crowd); [|done].
    repeat constructor.
  - vm_compute. reflexivity.
  - split; [exact Hobjs|]. apply Hids. apply (bool_decide_unpack _). vm_compute. exact I.
Defined.

Lemma ordered_interleaved : same_visits ordered interleaved.
Proof.
  intros v. unfold loc_visit, ordered, interleaved, src.
  rewrite !filter_cons, !filter_nil. simpl.
  destruct (decide (1%Z = v)) as [<-|?]; [done|].
  destruct (decide (2%Z = v)) as [<-|?]; done.
Qed.

Lemma objects_do_not_depend_on_interleaving_witness :
  rel_result (λ a b, a.2 = b.2) (run config ordered 5 16) (run config interleaved 5 16).
Proof. apply objects_do_not_depend_on_interleaving, ordered_interleaved. Defined.

End LatticeExtras.

(** * Chord and arc on the unit sphere *)

Module SphereRuns.
Import Stdlib.Reals.Reals Stdlib.micromega.Lra.
Import Sphere.
#[local] Open Scope R_scope.

Lemma match_radius_bounds : 0 < match_radius config < PI.
Proof.
  unfold match_radius. simpl. pose proof PI_RGT_0. split; lra.
Qed.

(** The chord is shorter than the arc. *)
Lemma chord_lt_arc (t : R) : 0 < t < PI → sqrt (2 - 2 * cos t) < t.
Proof.
  intros [H0 Hpi].
  replace t with (2 * (t / 2)) at 1 by lra. rewrite cos_2a_sin.
  assert (0 < sin (t / 2)) as Hs by (apply sin_gt_0; lra).
  assert (sin (t / 2) < t / 2) as Hlt by (apply sin_lt_x; lra).
  replace (2 - 2 * (1 - 2 * sin (t / 2) * sin (t / 2)))
    with ((2 * sin (t / 2)) * (2 * sin (t / 2))) by lra.
  rewrite sqrt_square by lra. lra.
Qed.

Lemma within_radius :
  Flt (unit_vector_distance half_arcsec 0 0 0) (match_radius config) = true.
Proof.
  pose proof match_radius_bounds as Hb.
  unfold unit_vector_distance, half_arcsec. simpl. unfold unit_vector. simpl.
  unfold match_radius in *. simpl in *.
  set (t := 1 / 2 / 3600 * (PI / 180)) in *.
  replace (PI / 2 - 0 * (PI / 180)) with (PI / 2) by lra.
  replace (0 * (PI / 180)) with 0 by lra.
  rewrite sin_PI2, cos_PI2, cos_0, sin_0.
  replace ((1 * cos t - 1 * 1) * (1 * cos t - 1 * 1)
           + (1 * sin t - 1 * 0) * (1 * sin t - 1 * 0) + (0 - 0) * (0 - 0))
    with (2 - 2 * cos t)
    by (pose proof (sin2_cos2 t) as Hsc; unfold Rsqr in Hsc; lra).
  unfold Rltb. destruct (Rlt_dec _ _) as [_|Hn]; [done|].
  destruct Hn. by apply chord_lt_arc.
Qed.

(** The separation of the two positions is the radius itself. *)
Lemma separation_is_radius : separation half_arcsec 0 0 0 = match_radius config.
Proof.
  pose proof match_radius_bounds as Hb.
  unfold separation, unit_vector, half_arcsec. unfold match_radius in *. simpl in *.
  set (t := 1 / 2 / 3600 * (PI / 180)) in *.
  replace (PI / 2 - 0 * (PI / 180)) with (PI / 2) by lra.
  replace (0 * (PI / 180)) with 0 by lra.
  rewrite sin_PI2, cos_PI2, cos_0, sin_0.
  replace (1 * cos t * (1 * 1) + 1 * sin t * (1 * 0) + 0 * 0) with (cos t) by lra.
  apply acos_cos. lra.
Qed.

Lemma average_defined :
  ∃ q, average [(0, 0); (half_arcsec, 0)] = Returns q.
Proof.
  pose proof match_radius_bounds as Hb. pose proof PI_RGT_0 as Hpi.
  unfold average, vector_sum, unit_vector, half_arcsec. unfold match_radius in *.
  simpl in *.
  set (t := 1 / 2 / 3600 * (PI / 180)) in *.
  replace (PI / 2 - 0 * (PI / 180)) with (PI / 2) by lra.
  replace (0 * (PI / 180)) with 0 by lra.
  rewrite sin_PI2, cos_PI2, cos_0, sin_0.
  assert (0 < cos t) as Hc by (apply cos_gt_0; unfold t; lra).
  destruct (Req_dec_T _ 0) as [Heq|_]; [|by eexists].
  exfalso. revert Heq.
  match goal with |- sqrt ?a = 0 → _ =>
    assert (0 < a) as Ha by nra; apply sqrt_lt_R0 in Ha end.
  lra.
Qed.

(** The claim of C3 fails on the code. Two sources in two ccdVisits, with
    the default configuration: the first at (0, 0), the second on the
    equator half an arcsecond away, so that its great-circle separation from
    the object the first one founds is the tolerance itself, not less.
    [run] attaches it: the chord between the unit vectors is shorter than
    the arc and passes the comparison.  One object is returned, with
    [nDiaSources = 2], and both rows hold its id. *)
Lemma attached_at_separation_equal_to_tolerance :
  separation half_arcsec 0 0 0 = match_radius config
  ∧ ∃ id o,
      run config [DiaSource.mk 1 1 0 0 None tt; DiaSource.mk 2 2 half_arcsec 0 None tt] 5 16
      = Ok ([DiaSource.mk 1 1 0 0 (Some id) tt; DiaSource.mk 2 2 half_arcsec 0 (Some id) tt],
            [o])
      ∧ DiaObject.diaObjectId o = id ∧ DiaObject.nDiaSources o = 2%Z.
Proof.
  split; [apply separation_is_radius|].
  destruct average_defined as [q Hq].
  exists 1407374883553281%Z, (moved (createDiaObject 1407374883553281 0 0) q.1 q.2).
  split; [|by split].
  refine (attach_in_second_visit config 5 16 0 0 half_arcsec 0 tt tt
            Lattice.idf0
            {| Lattice.upper := Z.shiftl 5 48; Lattice.sequence := 1;
               Lattice.reserved := 48 |}
            1407374883553281%Z 0%Z 0%Z (0, 0) (half_arcsec, 0) q [0%Z]
            _ _ _ _ _ _ _ _ _ _); try reflexivity.
  - apply list_elem_of_here.
  - apply within_radius.
  - exact Hq.
Qed.



End SphereRuns.
